(** * bpg: turn-based RPG effect engine

    A shallow embedding of the repository's TypeScript and of the
    TypeScript fragments of its design notes, followed by the properties
    stated about them.

    Sources embedded
    - [src/lib/stats.ts] and the type file that imports it (classes
      [Combat], [Actor], [Character], type [ActorProperty]): module [Lib].
    - Design notes, "Property Aggregation" ([effectiveAttack], [equipItem],
      [unequipItem]): modules [Grants] and [Char].
    - Design notes, "Effect Registration" ([addEffect],
      [removeEffectsFromSource]): module [Store].
    - Design notes, "Turn Order System", "Loop Prevention", "Priority
      System", "Pipeline Processing Flow": modules [Scheduler] and
      [Pipeline].  The repository has no implementation of the scheduler or
      of the pipeline; these two modules are modelled from the prose of the
      specification and of the notes and say so.

    Numbers.  A JavaScript [number] is modelled as an exact rational [Q];
    equality of computed numbers is [Qeq] (written [==]).  The rounding of
    IEEE-754 doubles is not modelled; the concrete cases of the numbered
    properties use whole numbers and the fractions 1.5 and 0.5, which
    doubles hold exactly.
    [NaN] and the infinities are not rationals: where a JavaScript getter
    would return [NaN] out of [undefined] the model returns [None], and an
    event records, beside its rational current values, the value kinds whose
    current value has become [NaN].

    Objects.  JavaScript compares objects by reference.  An effect is a
    value of a type with decidable equality, an item carries the identity
    of its object, and the schedule is keyed by actor references. *)

From Stdlib Require Import QArith Qminmax Qround ZArith Lia.
From stdpp Require Import base gmap list strings sorting pretty.

#[local] Set Warnings "-register-all,-clear-no-such-hyp".
#[local] Open Scope Q_scope.

(* ===================================================================== *)
(** * Part I: the embedding                                               *)
(* ===================================================================== *)

(** ** JavaScript operators used by the fragments *)
Module Js.

(** [x || d] on [number | undefined]: the left operand is kept unless it is
    falsy, and the falsy numbers of the model are [undefined] and zero. *)
Definition or_default (x : option Q) (d : Q) : Q :=
  match x with
  | Some v => if Qeq_bool v 0 then d else v
  | None => d
  end.

(** [o?.k] for an optional object [o] holding an optional member. *)
Definition opt_chain {A B : Type} (o : option A) (k : A → option B) : option B :=
  match o with
  | Some a => k a
  | None => None
  end.

(** Truthiness of an optional boolean member ([undefined] is falsy). *)
Definition truthy (b : option bool) : bool :=
  match b with
  | Some v => v
  | None => false
  end.

End Js.

(** ** [src/lib]: the stat enumeration and the actor types *)
Module Lib.

(** [export enum STATS] *)
Inductive STATS : Type := STR | DEX | INT | LUK | WIS.

(** The string value of each member of the enum. *)
Definition STATS_value (s : STATS) : string :=
  match s with
  | STR => "stat.strength"
  | DEX => "stat.dexterity"
  | INT => "stat.intelligence"
  | LUK => "stat.luck"
  | WIS => "stat.wisdom"
  end.

(** [Object.values(STATS)], in declaration order. *)
Definition STATS_members : list STATS := [STR; DEX; INT; LUK; WIS].

(** Membership test of a string in the enum, as a reverse lookup. *)
Definition STATS_of_string (x : string) : option STATS :=
  list_find (λ s, STATS_value s = x) STATS_members ≫= λ p, Some (snd p).

(** [export interface StatFlat]; [value] is a [number] ("always an integer"). *)
Record StatFlat : Type := mkStatFlat { sf_stat : STATS; sf_value : Q }.

(** [export interface StatMult]; [value] is a [number] ("always a float"). *)
Record StatMult : Type := mkStatMult { sm_stat : STATS; sm_value : Q }.

(** The inner object of [ActorProperty.stats]. *)
Record PropertyStats : Type := mkPropertyStats {
  ps_flat : option (list StatFlat);
  ps_mult : option (list StatMult)
}.

(** [type ActorProperty = { stats?: { flat?: StatFlat[]; mult?: StatMult[] } }] *)
Record ActorProperty : Type := mkActorProperty {
  ap_stats : option PropertyStats
}.

(** [type Effect = {}]: a placeholder without members. *)
Record Effect : Type := mkEffect { }.

(** [class Actor], one field per member; an optional member without an
    initialiser is [None] ([undefined]). *)
Record Actor : Type := mkActor {
  name : string;
  uuid : string;
  useTurnOrder : option bool;
  effects : option (list Effect);
  properties : option (list ActorProperty)
}.

(** [new Actor()]: the field initialisers of the class body. *)
Definition new_Actor : Actor :=
  {| name := "nameme";
     uuid := "needsUuid";
     useTurnOrder := Some false;
     effects := None;
     properties := None |}.

(** [new Character()]: [class Character extends Actor] overrides [name] only. *)
Definition new_Character : Actor :=
  {| name := "charNeedsName";
     uuid := uuid new_Actor;
     useTurnOrder := useTurnOrder new_Actor;
     effects := effects new_Actor;
     properties := properties new_Actor |}.

(** [class Combat] *)
Record Combat : Type := mkCombat {
  actors : list Actor;
  combatants : list Actor
}.

Definition new_Combat : Combat := {| actors := []; combatants := [] |}.

(** [actor.useTurnOrder = b], the explicit opt-in when [b] is [true]. *)
Definition set_useTurnOrder (a : Actor) (b : bool) : Actor :=
  {| name := name a; uuid := uuid a; useTurnOrder := Some b;
     effects := effects a; properties := properties a |}.

(** The scheduler's reading of the participation flag. *)
Definition takesTurns (a : Actor) : bool := Js.truthy (useTurnOrder a).

(** Every stat contribution an [ActorProperty] carries, flat then mult, as
    the enum member it refers to. *)
Definition property_stat_refs (p : ActorProperty) : list STATS :=
  match ap_stats p with
  | None => []
  | Some st =>
      (sf_stat <$> default [] (ps_flat st)) ++ (sm_stat <$> default [] (ps_mult st))
  end.

End Lib.

(** ** Design notes, "Property Aggregation": what items, buffs and classes grant *)
Module Grants.

(** [StatBlock]: a JavaScript object from stat identifier to number. *)
Abbreviation StatBlock := (gmap string Q).

(** Numbers as data: two numerals are the same datum when numerator and
    denominator agree. *)
#[global] Instance Q_eq_dec : EqDecision Q.
Proof. solve_decision. Defined.

(** A parameter value of an effect definition (a number or a string). *)
Inductive ParamValue : Type :=
| PNum (q : Q)
| PStr (s : string).

#[global] Instance ParamValue_eq_dec : EqDecision ParamValue.
Proof. solve_decision. Defined.

(** [{ effectType: string, params: {...} }] *)
Record EffectDefinition : Type := mkEffectDefinition {
  effectType : string;
  params : gmap string ParamValue
}.

#[global] Instance EffectDefinition_eq_dec : EqDecision EffectDefinition.
Proof. solve_decision. Defined.

(** An action definition; the notes fix no member beyond its type tag. *)
Record Action : Type := mkAction { action_type : string }.

#[global] Instance Action_eq_dec : EqDecision Action.
Proof. solve_decision. Defined.

(** [stats?: { flat?: StatBlock, percent?: StatBlock }] *)
Record GrantStats : Type := mkGrantStats {
  flat : option StatBlock;
  percent : option StatBlock
}.

#[global] Instance GrantStats_eq_dec : EqDecision GrantStats.
Proof. solve_decision. Defined.

(** The [grants] object of an item, buff or class (the PropertyGrant). *)
Record PropertyGrant : Type := mkPropertyGrant {
  stats : option GrantStats;
  actions : option (list Action);
  effects : option (list EffectDefinition)
}.

#[global] Instance PropertyGrant_eq_dec : EqDecision PropertyGrant.
Proof. solve_decision. Defined.

(** An item object of the notes ([id], [name], [grants]).  [unequipItem]
    compares items by reference ([i !== item]); [item_ref] is the identity
    of the object, so that two items are the same object exactly when they
    are equal, and two distinct objects may well hold the same [id]. *)
Record Item : Type := mkItem {
  item_ref : nat;
  item_id : string;
  item_name : string;
  item_grants : PropertyGrant
}.

#[global] Instance Item_eq_dec : EqDecision Item.
Proof. solve_decision. Defined.

Record Buff : Type := mkBuff {
  buff_id : string;
  buff_grants : PropertyGrant
}.

Record Class : Type := mkClass { class_grants : PropertyGrant }.

(** [g.stats?.flat?.[k]] *)
Definition flat_of (g : PropertyGrant) (k : string) : option Q :=
  Js.opt_chain (Js.opt_chain (stats g) flat) (λ b, b !! k).

(** [g.stats?.percent?.[k]] *)
Definition percent_of (g : PropertyGrant) (k : string) : option Q :=
  Js.opt_chain (Js.opt_chain (stats g) percent) (λ b, b !! k).

End Grants.

(** ** Design notes, "Effect Registration": the per-actor effect store *)
Module Store.
Import Grants.

Section store.

(** Effects are JavaScript objects compared with [===]/[!==]: a type with a
    decidable equality stands for their references. *)
Context {Eff : Type} `{EqDecision Eff}.

(** [effect.eventTypes] *)
Variable eventTypes : Eff → list string.

(** The pipeline's listener index: event type to the registrations
    (effect, owning actor) made for it, oldest first. *)
Abbreviation Listeners := (gmap string (list (Eff * string))).

(** The unified [Actor] of the notes. *)
Record Actor : Type := mkActor {
  actor_id : string;          (* [id] *)
  name : string;
  effects : list Eff;
  baseStats : StatBlock;
  takesTourns : bool;
  effectsBySource : gmap string (list Eff)
}.

Definition set_effects (a : Actor) (l : list Eff) : Actor :=
  {| actor_id := actor_id a; name := name a; effects := l; baseStats := baseStats a;
     takesTourns := takesTourns a; effectsBySource := effectsBySource a |}.

Definition set_effectsBySource (a : Actor) (m : gmap string (list Eff)) : Actor :=
  {| actor_id := actor_id a; name := name a; effects := effects a; baseStats := baseStats a;
     takesTourns := takesTourns a; effectsBySource := m |}.

(** Modelled from the spec: [pipeline.registerEffect(effect, owner)], which
    the notes call but do not define.  Section 4.2: the effect is registered
    with the per-event-type listener index, and registering twice leaves
    two registrations. *)
Definition registerEffect (effect : Eff) (owner : string) (p : Listeners) : Listeners :=
  foldl (λ acc t, <[t := default [] (acc !! t) ++ [(effect, owner)]]> acc)
        p (eventTypes effect).

(** Modelled from the spec: [pipeline.unregisterEffect(effect, owner)], which
    the notes call but do not define.  The registrations of this effect for
    this owner are removed under every event type. *)
Definition unregisterEffect (effect : Eff) (owner : string) (p : Listeners) : Listeners :=
  filter (λ r, r ≠ (effect, owner)) <$> p.

(** [addEffect(effect, source)] *)
Definition addEffect (a : Actor) (p : Listeners) (effect : Eff) (source : string)
  : Actor * Listeners :=
  let a1 := set_effects a (effects a ++ [effect]) in
  let sourceEffects := default [] (effectsBySource a1 !! source) ++ [effect] in
  (set_effectsBySource a1 (<[source := sourceEffects]> (effectsBySource a1)),
   registerEffect effect (actor_id a) p).

(** One turn of the [forEach] body of [removeEffectsFromSource]. *)
Definition remove_one (st : Actor * Listeners) (effect : Eff) : Actor * Listeners :=
  (set_effects st.1 (filter (λ e, e ≠ effect) (effects st.1)),
   unregisterEffect effect (actor_id st.1) st.2).

(** [removeEffectsFromSource(source)] *)
Definition removeEffectsFromSource (a : Actor) (p : Listeners) (source : string)
  : Actor * Listeners :=
  let bucket := default [] (effectsBySource a !! source) in
  let st := foldl remove_one (a, p) bucket in
  (set_effectsBySource st.1 (delete source (effectsBySource st.1)), st.2).

(** Modelled from the spec: [removeEffect(effect)], absent from the notes.
    Section 4.2: the effect leaves the flat collection and whichever source
    bucket references it, and is unregistered from the pipeline. *)
Definition removeEffect (a : Actor) (p : Listeners) (effect : Eff) : Actor * Listeners :=
  let a1 := set_effects a (filter (λ e, e ≠ effect) (effects a)) in
  (set_effectsBySource a1 (filter (λ e, e ≠ effect) <$> effectsBySource a1),
   unregisterEffect effect (actor_id a) p).

(** A call on the store. *)
Inductive StoreOp : Type :=
| OpAdd (effect : Eff) (source : string)
| OpRemove (effect : Eff)
| OpRemoveSource (source : string).

Definition apply_op (st : Actor * Listeners) (op : StoreOp) : Actor * Listeners :=
  match op with
  | OpAdd e s => addEffect st.1 st.2 e s
  | OpRemove e => removeEffect st.1 st.2 e
  | OpRemoveSource s => removeEffectsFromSource st.1 st.2 s
  end.

Definition run_ops (st : Actor * Listeners) (ops : list StoreOp) : Actor * Listeners :=
  foldl apply_op st ops.

(** The source index is a partition-consistent view of the flat list: the
    flat list holds exactly the members of the buckets, no effect sits in
    two buckets, and nothing is listed twice. *)
Record consistent (a : Actor) : Prop := mkConsistent {
  flat_iff_bucket :
    ∀ e, e ∈ effects a ↔ ∃ s l, effectsBySource a !! s = Some l ∧ e ∈ l;
  one_bucket :
    ∀ s1 s2 l1 l2 e,
      effectsBySource a !! s1 = Some l1 → effectsBySource a !! s2 = Some l2 →
      e ∈ l1 → e ∈ l2 → s1 = s2;
  flat_nodup : NoDup (effects a);
  bucket_nodup : ∀ s l, effectsBySource a !! s = Some l → NoDup l
}.

(** The usage rule of section 4.2: an effect is never added while the store
    already holds it. *)
Fixpoint adds_fresh (st : Actor * Listeners) (ops : list StoreOp) : Prop :=
  match ops with
  | [] => True
  | op :: rest =>
      match op with
      | OpAdd e _ => e ∉ effects st.1
      | _ => True
      end ∧ adds_fresh (apply_op st op) rest
  end.

End store.

Arguments Actor : clear implicits.
Arguments StoreOp : clear implicits.

End Store.

(** ** Design notes, "Property Aggregation": collection on access *)
Module Char.
Import Grants Store.

Section char.

Context {Eff : Type} `{EqDecision Eff}.
Variable eventTypes : Eff → list string.

(** [createEffect(def, owner)]: the registry's factory call.  Definitions
    are validated when they are loaded, so the call is total here. *)
Variable createEffect : EffectDefinition → string → Eff.

Abbreviation Listeners := (gmap string (list (Eff * string))).

(** [Character extends Actor]: the actor members and the character's own. *)
Record Character : Type := mkCharacter {
  actor : Actor Eff;
  equipment : list Item;
  class : Class;
  buffs : list Buff
}.

Definition set_actor (c : Character) (a : Actor Eff) : Character :=
  {| actor := a; equipment := equipment c; class := class c; buffs := buffs c |}.

Definition set_equipment (c : Character) (l : list Item) : Character :=
  {| actor := actor c; equipment := l; class := class c; buffs := buffs c |}.

(** The getter [effectiveAttack] of the notes, with the stat key as an
    argument (the [effectiveStat(actor, statId)] of the Stat Aggregator):
<<
    let attack = this.baseStats.attack
    attack += this.class.grants.stats?.flat?.attack || 0
    this.equipment.forEach(item => attack += item.grants.stats?.flat?.attack || 0)
    let percent = 1.0
    this.buffs.forEach(buff => percent *= buff.grants.stats?.percent?.attack || 1.0)
    return attack * percent
>>
    A base stat block without the key makes the JavaScript result [NaN];
    the model returns [None] there. *)
Definition effectiveStat (c : Character) (statId : string) : option Q :=
  match baseStats (actor c) !! statId with
  | None => None
  | Some base =>
      let attack := base + Js.or_default (flat_of (class_grants (class c)) statId) 0 in
      let attack :=
        foldl (λ acc item, acc + Js.or_default (flat_of (item_grants item) statId) 0)
              attack (equipment c) in
      let percent :=
        foldl (λ acc buff, acc * Js.or_default (percent_of (buff_grants buff) statId) 1.0)
              1.0 (buffs c) in
      Some (attack * percent)
  end.

(** The composition rule in the words of the specification: the flat
    sources, base included, are summed, an absent grant counting 0; the sum
    is multiplied by the product of the buffs' percent multipliers, an
    absent grant counting 1.0. *)
Definition flat_sum (c : Character) (statId : string) (base : Q) : Q :=
  foldr Qplus 0
    (base :: default 0 (flat_of (class_grants (class c)) statId)
          :: ((λ item, default 0 (flat_of (item_grants item) statId)) <$> equipment c)).

Definition percent_product (c : Character) (statId : string) : Q :=
  foldr Qmult 1
    ((λ buff, default 1 (percent_of (buff_grants buff) statId)) <$> buffs c).

Definition effectiveStat_spec (c : Character) (statId : string) : option Q :=
  match baseStats (actor c) !! statId with
  | None => None
  | Some base => Some (flat_sum c statId base * percent_product c statId)
  end.

(** No buff of the character grants a zero percent multiplier for the stat. *)
Definition no_zero_percent (c : Character) (statId : string) : Prop :=
  ∀ buff v, buff ∈ buffs c → percent_of (buff_grants buff) statId = Some v → ¬ v == 0.

(** [equipItem(item)] *)
Definition equipItem (c : Character) (p : Listeners) (item : Item)
  : Character * Listeners :=
  let c1 := set_equipment c (equipment c ++ [item]) in
  match Grants.effects (item_grants item) with
  | Some defs =>
      foldl (λ st def,
               let effect := createEffect def (actor_id (actor st.1)) in
               let r := addEffect eventTypes (actor st.1) st.2 effect
                                  ("item:" +:+ item_id item) in
               (set_actor st.1 r.1, r.2))
            (c1, p) defs
  | None => (c1, p)
  end.

(** [unequipItem(item)]:
<<
    this.equipment = this.equipment.filter(i => i !== item)
    this.removeEffectsFromSource(`item:${item.id}`)
>>
    The filter compares objects: only the item passed leaves the list. *)
Definition unequipItem (c : Character) (p : Listeners) (item : Item)
  : Character * Listeners :=
  let c1 := set_equipment c (filter (λ i, i ≠ item) (equipment c)) in
  let r := removeEffectsFromSource (actor c1) p ("item:" +:+ item_id item) in
  (set_actor c1 r.1, r.2).

End char.

Arguments Character : clear implicits.

End Char.

(** ** The Turn Scheduler

    Modelled from the spec: the repository has no scheduler, only the
    sketch [Combat { currentTick: number, actorSchedule: Map<Actor,
    ticksUntilAction> }] and the delay rule of the notes.  Everything in
    this module follows section 4.4 of the specification. *)
Module Scheduler.

Section scheduler.

(** The scheduler sees an actor object [A] through its reference (the key
    of the schedule's [Map], of type [K]) and two observations. *)
Context {A K : Type} `{Countable K}.
Variable ident : A → K.
Variable takesTurns : A → bool.

(** [effectiveSpeed(actor)]; [None] when the Stat Aggregator has no number
    to give. *)
Variable effectiveSpeed : A → option Q.

(** Modelled from the spec: the "agreed numeric rule" that rounds a delay to
    a whole number of ticks.  The specification leaves the rule open
    (rounding up, or to nearest), so it is a parameter of the scheduler. *)
Variable round : Q → Z.

(** Modelled from the spec: the scheduler state.  The current tick is an
    integer and every scheduled actor has a whole number of ticks
    remaining. *)
Record Schedule : Type := mkSchedule {
  currentTick : Z;
  actorSchedule : gmap K Z
}.

Definition set_actorSchedule (s : Schedule) (m : gmap K Z) : Schedule :=
  {| currentTick := currentTick s; actorSchedule := m |}.

(** Modelled from the spec: the delay rule [delay = 10000 / effectiveSpeed],
    scaled by the action's speed multiplier and rounded to ticks.  A speed
    of zero has no rational quotient (JavaScript gives an infinity) and
    yields [None]. *)
Definition delay_for (a : A) (speedOverrideMultiplier : Q) : option Z :=
  match effectiveSpeed a with
  | Some speed =>
      if Qeq_bool speed 0 then None
      else Some (round (10000 / speed * speedOverrideMultiplier))
  | None => None
  end.

(** Modelled from the spec: [scheduleNext(actor, speedOverrideMultiplier = 1.0)].
    The actor's ticks-remaining is set to the rounded delay; the multiplier
    defaults to 1.0 when the argument is omitted.  An actor that does not
    take turns never appears in the schedule, so the call leaves the
    schedule as it is for such an actor. *)
Definition scheduleNext (s : Schedule) (a : A) (speedOverrideMultiplier : option Q)
  : option Schedule :=
  if takesTurns a then
    match delay_for a (default 1.0 speedOverrideMultiplier) with
    | Some d => Some (set_actorSchedule s (<[ident a := d]> (actorSchedule s)))
    | None => None
    end
  else Some s.

(** Modelled from the spec: [grantImmediateAction(actor)] sets the
    ticks-remaining to 0, for an actor that takes turns. *)
Definition grantImmediateAction (s : Schedule) (a : A) : Schedule :=
  if takesTurns a
  then set_actorSchedule s (<[ident a := 0%Z]> (actorSchedule s))
  else s.

(** Modelled from the spec: [delay(actor, extraTicks)] adds to the
    ticks-remaining of a scheduled actor and may not drive it negative. *)
Definition delay (s : Schedule) (a : A) (extraTicks : Z) : Schedule :=
  set_actorSchedule s
    (alter (λ t, Z.max 0 (t + extraTicks)) (ident a) (actorSchedule s)).

(** Modelled from the spec: [addActor(actor)] joins the schedule (the first
    delay is left open and is 0 here); an actor that does not take turns
    never appears in it. *)
Definition addActor (s : Schedule) (a : A) : Schedule :=
  if takesTurns a
  then set_actorSchedule s (<[ident a := 0%Z]> (actorSchedule s))
  else s.

(** Modelled from the spec: [removeActor(actor)] leaves the schedule. *)
Definition removeActor (s : Schedule) (a : A) : Schedule :=
  set_actorSchedule s (delete (ident a) (actorSchedule s)).

(** The least ticks-remaining of the schedule, if it is not empty. *)
Definition min_ticks (m : gmap K Z) : option Z :=
  match snd <$> map_to_list m with
  | [] => None
  | t :: ts => Some (foldl Z.min t ts)
  end.

(** Modelled from the spec: [advance()].  The least ticks-remaining is
    subtracted from every actor and added to the current tick, and one
    actor whose count has reached zero is returned; the others that reached
    zero stay at zero for the following calls.  The stable secondary order
    among ties is the order of the schedule's entries.  There is no actor
    to return from an empty schedule. *)
Definition advance (s : Schedule) : option (K * Schedule) :=
  match min_ticks (actorSchedule s) with
  | None => None
  | Some least =>
      let remaining := (λ t, (t - least)%Z) <$> actorSchedule s in
      match list_find (λ kv, kv.2 = 0%Z) (map_to_list remaining) with
      | Some (_, (k, _)) =>
          Some (k, {| currentTick := (currentTick s + least)%Z;
                      actorSchedule := remaining |})
      | None => None
      end
  end.

(** The calls of the scheduler's contract. *)
Inductive Call : Type :=
| CallAddActor (a : A)
| CallRemoveActor (a : A)
| CallScheduleNext (a : A) (speedOverrideMultiplier : option Q)
| CallGrantImmediateAction (a : A)
| CallDelay (a : A) (extraTicks : Z)
| CallAdvance.

(** The actor object a call is about, as it is when the call is made. *)
Definition call_actor (c : Call) : option A :=
  match c with
  | CallAddActor a | CallRemoveActor a | CallScheduleNext a _
  | CallGrantImmediateAction a | CallDelay a _ => Some a
  | CallAdvance => None
  end.

(** One call; [None] when the call has no result ([scheduleNext] without a
    usable speed, [advance] on an empty schedule). *)
Definition call (s : Schedule) (c : Call) : option Schedule :=
  match c with
  | CallAddActor a => Some (addActor s a)
  | CallRemoveActor a => Some (removeActor s a)
  | CallScheduleNext a m => scheduleNext s a m
  | CallGrantImmediateAction a => Some (grantImmediateAction s a)
  | CallDelay a extraTicks => Some (delay s a extraTicks)
  | CallAdvance => snd <$> advance s
  end.

(** A sequence of calls, in order. *)
Definition calls (s : Schedule) (cs : list Call) : option Schedule :=
  foldl (λ acc c, acc ≫= λ s, call s c) (Some s) cs.

End scheduler.

Arguments Schedule K {_ _}.
Arguments Call A : clear implicits.

End Scheduler.

(** ** The Event Queue and Pipeline

    Modelled from the spec: the repository contains no pipeline code, only
    its description (specification section 4.1; notes, "Pipeline Processing
    Flow", "Priority System", "Loop Prevention").  Everything in this module
    follows that description. *)
Module Pipeline.

(** Modelled from the spec: the persistent attributes of an actor that
    resolution mutates (hp, bounded by a maximum when healed). *)
Record ActorState : Type := mkActorState { hp : Q; maxHp : Q }.

Abbreviation World := (gmap string ActorState).

(** Modelled from the spec: the Event of section 3.  Actors are referred to
    by identifier; value sets are objects from value kind to number.  The
    current-value set of the event consists of [currentValue], the kinds
    whose current value is a rational, and of [currentNaN], the kinds whose
    current value is [NaN]. *)
Inductive Event : Type := mkEvent {
  ev_type : string;
  source : string;
  target : string;
  baseValue : gmap string Q;
  currentValue : gmap string Q;
  currentNaN : gset string;
  flags : gset string;
  depth : nat;
  parentEvent : option Event;
  chainOrigin : option string;
  cancelled : bool
}.

Definition set_currentValue (e : Event) (v : gmap string Q) : Event :=
  {| ev_type := ev_type e; source := source e; target := target e;
     baseValue := baseValue e; currentValue := v; currentNaN := currentNaN e;
     flags := flags e; depth := depth e; parentEvent := parentEvent e;
     chainOrigin := chainOrigin e; cancelled := cancelled e |}.

Definition set_currentNaN (e : Event) (n : gset string) : Event :=
  {| ev_type := ev_type e; source := source e; target := target e;
     baseValue := baseValue e; currentValue := currentValue e; currentNaN := n;
     flags := flags e; depth := depth e; parentEvent := parentEvent e;
     chainOrigin := chainOrigin e; cancelled := cancelled e |}.

(** [event.cancelled = b] *)
Definition set_cancelled (e : Event) (b : bool) : Event :=
  {| ev_type := ev_type e; source := source e; target := target e;
     baseValue := baseValue e; currentValue := currentValue e;
     currentNaN := currentNaN e; flags := flags e;
     depth := depth e; parentEvent := parentEvent e;
     chainOrigin := chainOrigin e; cancelled := b |}.

(** The keys of the current-value set. *)
Definition current_keys (e : Event) : gset string :=
  dom (currentValue e) ∪ currentNaN e.

(** Modelled from the spec: what an action or a reaction handler chooses
    when it constructs an event; depth and parent are the pipeline's. *)
Record EventRequest : Type := mkEventRequest {
  rq_type : string;
  rq_source : string;
  rq_target : string;
  rq_values : gmap string Q;
  rq_flags : gset string;
  rq_chainOrigin : option string
}.

(** Modelled from the spec: event construction; the current values start
    equal to the base values and the event is not cancelled. *)
Definition newEvent (rq : EventRequest) (d : nat) (parent : option Event) : Event :=
  {| ev_type := rq_type rq; source := rq_source rq; target := rq_target rq;
     baseValue := rq_values rq; currentValue := rq_values rq; currentNaN := ∅;
     flags := rq_flags rq; depth := d; parentEvent := parent;
     chainOrigin := rq_chainOrigin rq; cancelled := false |}.

(** A root event has depth 0 and no parent. *)
Definition rootEvent (rq : EventRequest) : Event := newEvent rq 0 None.

(** A child event: [depth = parent.depth + 1], [parentEvent = parent]. *)
Definition spawn (parent : Event) (rq : EventRequest) : Event :=
  newEvent rq (S (depth parent)) (Some parent).

(** Modelled from the spec: an interceptor, a transformation keyed to a
    (modification effect, value kind) pair, alive for one event. *)
Record Interceptor : Type := mkInterceptor {
  ic_effect : string;
  ic_kind : string;
  ic_transform : Q → Q
}.

(** Modelled from the spec: the handler of an effect, by phase.  A handler
    receives the event, its owner and the actors' state; [None] stands for
    a handler that throws.
    - meta-modification: registers interceptors;
    - modification: the deltas it applies with [+=], per value kind;
    - validation: the "allow" decision;
    - reaction: the events it constructs. *)
Inductive Handler : Type :=
| MetaModification (h : Event → string → World → option (list Interceptor))
| Modification (h : Event → string → World → option (list (string * Q)))
| Validation (h : Event → string → World → option bool)
| Reaction (h : Event → string → World → option (list EventRequest)).

Inductive Phase : Type :=
| PhMetaModification | PhModification | PhValidation | PhReaction.

#[global] Instance Phase_eq_dec : EqDecision Phase.
Proof. solve_decision. Defined.

(** Modelled from the spec: the Effect of section 3. *)
Record Effect : Type := mkEffect {
  effect_id : string;
  priority : Z;
  eventTypes : list string;
  owner : string;
  handler : Handler
}.

Definition phase_of (f : Effect) : Phase :=
  match handler f with
  | MetaModification _ => PhMetaModification
  | Modification _ => PhModification
  | Validation _ => PhValidation
  | Reaction _ => PhReaction
  end.

(** Modelled from the spec: the log/trace records the pipeline emits, one
    entry per thing it did, in order. *)
Inductive Entry : Type :=
| Dropped (e : Event)
| Ran (effect : string) (e : Event)
| Cancelled (e : Event)
| Resolved (e : Event).

(** Modelled from the spec: the pipeline, with its queue, the actors it
    resolves into, its per-event-type listener index, the configured
    maximum depth and the record of what it did. *)
Record Pipeline : Type := mkPipeline {
  queue : list Event;
  world : World;
  listeners : gmap string (list Effect);
  maxDepth : nat;
  trace : list Entry
}.

(** Modelled from the spec: the default maximum depth. *)
Definition default_maxDepth : nat := 10.

Definition new_Pipeline (l : gmap string (list Effect)) (w : World) : Pipeline :=
  {| queue := []; world := w; listeners := l;
     maxDepth := default_maxDepth; trace := [] |}.

(** Modelled from the spec: [submit(event)] enqueues. *)
Definition submit (p : Pipeline) (e : Event) : Pipeline :=
  {| queue := queue p ++ [e]; world := world p; listeners := listeners p;
     maxDepth := maxDepth p; trace := trace p |}.

(** Modelled from the spec: execution order within a phase is descending
    priority, ties broken by registration order.  Stable insertion: an
    effect goes before the first effect whose priority does not exceed its
    own. *)
Fixpoint insert_by_priority (f : Effect) (l : list Effect) : list Effect :=
  match l with
  | [] => [f]
  | g :: rest =>
      if (priority g <=? priority f)%Z then f :: g :: rest
      else g :: insert_by_priority f rest
  end.

(** Descending priority along a list of effects. *)
Abbreviation descending :=
  (StronglySorted (λ f g : Effect, (priority g ≤ priority f)%Z)).

(** Descending priority, ties in registration order. *)
Definition by_priority (l : list Effect) : list Effect :=
  foldr insert_by_priority [] l.

(** Modelled from the spec: the effects that run in a phase for an event,
    those registered for its type, in execution order.  The pipeline
    filters by event type only; the rest of applicability is the handler's. *)
Definition effects_for (ph : Phase) (l : gmap string (list Effect)) (e : Event)
  : list Effect :=
  by_priority (filter (λ f, phase_of f = ph) (default [] (l !! ev_type e))).

(** Modelled from the spec: the meta-modification phase collects the
    interceptors the handlers register; [meta_step] is one handler call. *)
Definition meta_step (e : Event) (w : World)
    (acc : list Interceptor * list Entry) (f : Effect)
  : list Interceptor * list Entry :=
  match handler f with
  | MetaModification h =>
      (acc.1 ++ default [] (h e (owner f) w), acc.2 ++ [Ran (effect_id f) e])
  | _ => acc
  end.

Definition run_meta (effs : list Effect) (e : Event) (w : World)
  : list Interceptor * list Entry :=
  foldl (meta_step e w) ([], []) effs.

(** Modelled from the spec: a delta of effect [fid] on value kind [kind],
    adjusted by the interceptors registered against that pair. *)
Definition intercepted (ics : list Interceptor) (fid kind : string) (amount : Q) : Q :=
  foldl (λ a ic,
           if decide (ic_effect ic = fid ∧ ic_kind ic = kind)
           then ic_transform ic a else a)
        amount ics.

(** The adjusted delta is applied to the current value of its kind as the
    handlers of the notes do, [event.currentDamage += amount]: a rational
    value is increased; a kind that the event does not carry, or whose value
    is [NaN] already, ends up in the current-value set with the value [NaN]
    ([undefined + amount] and [NaN + amount] are [NaN]). *)
Definition apply_delta (ics : list Interceptor) (fid : string)
    (cur : gmap string Q * gset string) (d : string * Q)
  : gmap string Q * gset string :=
  match cur.1 !! d.1 with
  | Some _ => (alter (λ v, v + intercepted ics fid d.1 d.2) d.1 cur.1, cur.2)
  | None => (cur.1, cur.2 ∪ {[d.1]})
  end.

Definition modify_with (ics : list Interceptor) (w : World) (e : Event) (f : Effect)
  : Event :=
  match handler f with
  | Modification h =>
      let r := foldl (apply_delta ics (effect_id f)) (currentValue e, currentNaN e)
                     (default [] (h e (owner f) w)) in
      set_currentNaN (set_currentValue e r.1) r.2
  | _ => e
  end.

(** Modelled from the spec: the modification phase; each handler sees the
    event as the handlers before it left it. *)
Definition modification_step (ics : list Interceptor) (w : World)
    (acc : Event * list Entry) (f : Effect) : Event * list Entry :=
  (modify_with ics w acc.1 f, acc.2 ++ [Ran (effect_id f) acc.1]).

Definition run_modification (ics : list Interceptor) (effs : list Effect)
    (e : Event) (w : World) : Event * list Entry :=
  foldl (modification_step ics w) (e, []) effs.

(** Modelled from the spec: the validation phase, sequential; the first
    handler that returns false marks the event cancelled and the remaining
    ones are skipped.  A handler that throws counts as having no effect.
    The result is the event with its [cancelled] marker as the phase leaves
    it. *)
Fixpoint run_validation (effs : list Effect) (e : Event) (w : World)
  : Event * list Entry :=
  match effs with
  | [] => (e, [])
  | f :: rest =>
      match handler f with
      | Validation h =>
          match h e (owner f) w with
          | Some false => (set_cancelled e true, [Ran (effect_id f) e])
          | _ =>
              let r := run_validation rest e w in
              (r.1, Ran (effect_id f) e :: r.2)
          end
      | _ => run_validation rest e w
      end
  end.

Definition set_hp (a : ActorState) (v : Q) : ActorState :=
  {| hp := v; maxHp := maxHp a |}.

(** Modelled from the spec: resolution.  Damage subtracts the final value
    of kind "damage" from the target's hp; heal adds the final value of kind
    "amount", bounded at the maximum; other event types change no actor.
    The hit points of an actor are rationals: an event whose value of that
    kind is absent or [NaN] has no number to apply and changes no actor. *)
Definition resolve (e : Event) (w : World) : World :=
  if decide (ev_type e = "damage") then
    match currentValue e !! "damage" with
    | Some d => alter (λ a, set_hp a (hp a - d)) (target e) w
    | None => w
    end
  else if decide (ev_type e = "heal") then
    match currentValue e !! "amount" with
    | Some h => alter (λ a, set_hp a (Qmin (hp a + h) (maxHp a))) (target e) w
    | None => w
    end
  else w.

(** Modelled from the spec: the reaction phase; every handler runs and the
    events they construct are collected. *)
Definition reaction_step (e : Event) (w : World)
    (acc : list EventRequest * list Entry) (f : Effect)
  : list EventRequest * list Entry :=
  match handler f with
  | Reaction h =>
      (acc.1 ++ default [] (h e (owner f) w), acc.2 ++ [Ran (effect_id f) e])
  | _ => acc
  end.

Definition run_reaction (effs : list Effect) (e : Event) (w : World)
  : list EventRequest * list Entry :=
  foldl (reaction_step e w) ([], []) effs.

(** Modelled from the spec: one turn of the [drain()] loop, [None] when the
    queue is empty.  The dequeued event meets the depth guard, then the
    phases in order.  Cancellation is driven by the [cancelled] marker of
    the event as validation leaves it: a cancelled event is neither resolved
    nor reacted to.  Spawned events join the end of the queue. *)
Definition step (p : Pipeline) : option Pipeline :=
  match queue p with
  | [] => None
  | e :: rest =>
      if decide (maxDepth p < depth e)%nat then
        Some {| queue := rest; world := world p; listeners := listeners p;
                maxDepth := maxDepth p; trace := trace p ++ [Dropped e] |}
      else
        let l := listeners p in
        let w := world p in
        let meta := run_meta (effects_for PhMetaModification l e) e w in
        let modif := run_modification meta.1 (effects_for PhModification l e) e w in
        let e2 := modif.1 in
        let valid := run_validation (effects_for PhValidation l e2) e2 w in
        let e3 := valid.1 in
        if cancelled e3 then
          Some {| queue := rest; world := w; listeners := l;
                  maxDepth := maxDepth p;
                  trace := trace p ++ meta.2 ++ modif.2 ++ valid.2
                                   ++ [Cancelled e3] |}
        else
          let w' := resolve e3 w in
          let react := run_reaction (effects_for PhReaction l e3) e3 w' in
          Some {| queue := rest ++ (spawn e3 <$> react.1);
                  world := w'; listeners := l; maxDepth := maxDepth p;
                  trace := trace p ++ meta.2 ++ modif.2 ++ valid.2
                                   ++ [Resolved e3] ++ react.2 |}
  end.

(** Modelled from the spec: [drain()], which runs until the queue is empty;
    [fuel] bounds the number of events processed. *)
Fixpoint drain (fuel : nat) (p : Pipeline) : Pipeline :=
  match fuel with
  | O => p
  | S n =>
      match step p with
      | None => p
      | Some p' => drain n p'
      end
  end.

(** A meta-modification or modification effect that registers no
    interceptor and applies no delta on this event is not applicable to it. *)
Definition silent (f : Effect) (e : Event) (w : World) : Prop :=
  match handler f with
  | MetaModification h => default [] (h e (owner f) w) = []
  | Modification h => default [] (h e (owner f) w) = []
  | _ => True
  end.

(** Not applicable to the event whatever its current values have become. *)
Definition quiet (f : Effect) (e : Event) (w : World) : Prop :=
  ∀ v, silent f (set_currentValue e v) w.





(** The event an entry of the record is about. *)
Definition entry_event (x : Entry) : Event :=
  match x with
  | Dropped e | Ran _ e | Cancelled e | Resolved e => e
  end.

(** The events that went through a phase or were resolved or cancelled:
    every entry but the drops. *)
Definition processed (tr : list Entry) : list Event :=
  omap (λ x, match x with Dropped _ => None | _ => Some (entry_event x) end) tr.

(** The events that were resolved. *)
Definition resolved (tr : list Entry) : list Event :=
  omap (λ x, match x with Resolved e => Some e | _ => None end) tr.

(** The events that were dropped by the depth guard. *)
Definition dropped (tr : list Entry) : list Event :=
  omap (λ x, match x with Dropped e => Some e | _ => None end) tr.

(** [e'] is [e] with other current values, under at least the keys it had,
    cancelled or not: what the phases may make of a dequeued event. *)
Definition variant (e e' : Event) : Prop :=
  ∃ v n b, e' = set_cancelled (set_currentNaN (set_currentValue e v) n) b
           ∧ current_keys e ⊆ dom v ∪ n.

(** A validation effect whose handler does not return false on the event. *)
Definition allows (f : Effect) (e : Event) (w : World) : Prop :=
  ∃ h, handler f = Validation h ∧ h e (owner f) w ≠ Some false.

(** A validation effect whose handler returns false on the event. *)
Definition denies (f : Effect) (e : Event) (w : World) : Prop :=
  ∃ h, handler f = Validation h ∧ h e (owner f) w = Some false.

(** The entries the validation phase leaves for the handlers it ran. *)
Definition ran_on (e : Event) (effs : list Effect) : list Entry :=
  (λ f, Ran (effect_id f) e) <$> effs.

(** The identifiers of the effects whose handlers ran, in order. *)
Definition ran_effects (tr : list Entry) : list string :=
  omap (λ x, match x with Ran i _ => Some i | _ => None end) tr.


End Pipeline.

(** ** Design notes, "Data-Driven Design": effect factories *)
Module Registry.
Import Pipeline.

(** [EffectRegistry['onAttack_addDamage']] of the notes:
<<
    phase: 'modification', priority: 50, eventTypes: ['damage'],
    handler: (event, owner) => {
      if (event.source === owner) { event.currentDamage += params.amount }
    }
>>
    The handler writes to the damage value of whatever event it is given,
    whether the event carries one or not. *)
Definition onAttack_addDamage (eid owner : string) (amount : Q) : Effect :=
  {| effect_id := eid; priority := 50; eventTypes := ["damage"]; owner := owner;
     handler := Modification (λ event owner _,
       if decide (source event = owner) then Some [("damage", amount)]
       else Some []) |}.

(** Modelled from the spec: the multiplicative modifier of the priority
    table ("x1.5 damage", priority 100).  Multiplying the current value by
    [factor] is the delta [current * (factor - 1)]; on an absent or [NaN]
    value the product is [NaN] whatever the amount written. *)
Definition onAttack_multiplyDamage (eid owner : string) (factor : Q) : Effect :=
  {| effect_id := eid; priority := 100; eventTypes := ["damage"]; owner := owner;
     handler := Modification (λ event owner _,
       if decide (source event = owner) then
         match currentValue event !! "damage" with
         | Some v => Some [("damage", v * (factor - 1))]
         | None => Some [("damage", 0)]
         end
       else Some []) |}.

(** Modelled from the spec: the "+20% damage" modifier of the scenarios,
    priority 50; its delta is the current value times [pct], and [NaN] on an
    absent or [NaN] value. *)
Definition onAttack_percentDamage (eid owner : string) (pct : Q) : Effect :=
  {| effect_id := eid; priority := 50; eventTypes := ["damage"]; owner := owner;
     handler := Modification (λ event owner _,
       if decide (source event = owner) then
         match currentValue event !! "damage" with
         | Some v => Some [("damage", v * pct)]
         | None => Some [("damage", 0)]
         end
       else Some []) |}.

(** Modelled from the spec: the meta-modification "amplify the bonuses of
    effect [amplified] by [factor]", priority 150; it registers an
    interceptor against (that effect, damage). *)
Definition amplifyBonuses (eid owner amplified : string) (factor : Q) : Effect :=
  {| effect_id := eid; priority := 150; eventTypes := ["damage"]; owner := owner;
     handler := MetaModification (λ _ _ _,
       Some [ {| ic_effect := amplified; ic_kind := "damage";
                 ic_transform := λ delta, delta * factor |} ]) |}.

(** Modelled from the spec: the reaction "heal for [pct] of the damage
    increase"; the heal it spawns is flagged so that it is told apart. *)
Definition onDamage_lifeSteal (eid owner : string) (pct : Q) : Effect :=
  {| effect_id := eid; priority := 0; eventTypes := ["damage"]; owner := owner;
     handler := Reaction (λ event owner _,
       if decide (source event = owner) then
         match currentValue event !! "damage", baseValue event !! "damage" with
         | Some cur, Some base =>
             Some [ {| rq_type := "heal"; rq_source := owner; rq_target := owner;
                       rq_values := {["amount" := (cur - base) * pct]};
                       rq_flags := {["fromLifeSteal"]}; rq_chainOrigin := None |} ]
         | _, _ => Some []
         end
       else Some []) |}.

(** Modelled from the spec: a validation effect of the block kind whose
    roll is fixed by [roll]; it denies the event when its owner is the
    target and the roll succeeds. *)
Definition onDamaged_block (eid owner : string) (roll : bool) : Effect :=
  {| effect_id := eid; priority := 0; eventTypes := ["damage"]; owner := owner;
     handler := Validation (λ event owner _,
       if decide (target event = owner) then Some (negb roll) else Some true) |}.

(** Modelled from the spec: a reaction that re-spawns the event it reacts
    to, on the same actors and with no blocking flag, so that the chain it
    starts never ends by itself. *)
Definition onDamaged_echo (eid owner : string) : Effect :=
  {| effect_id := eid; priority := 0; eventTypes := ["damage"]; owner := owner;
     handler := Reaction (λ event owner _,
       if decide (target event = owner) then
         Some [ {| rq_type := ev_type event; rq_source := source event;
                   rq_target := target event; rq_values := baseValue event;
                   rq_flags := flags event; rq_chainOrigin := chainOrigin event |} ]
       else Some []) |}.

(** Modelled from the spec: registration in the listener index, at the end
    of the bucket of each event type the effect listens for. *)
Definition register (l : gmap string (list Effect)) (f : Effect)
  : gmap string (list Effect) :=
  foldl (λ acc t, <[t := default [] (acc !! t) ++ [f]]> acc) l (eventTypes f).

End Registry.

(** ** Concrete actors, items and pipelines used below *)
Module Scenario.
Import Grants.


Definition flat_grant (statId : string) (v : Q) : PropertyGrant :=
  {| stats := Some {| flat := Some {[statId := v]}; percent := None |};
     actions := None; effects := None |}.

Definition percent_grant (statId : string) (v : Q) : PropertyGrant :=
  {| stats := Some {| flat := None; percent := Some {[statId := v]} |};
     actions := None; effects := None |}.

Definition plain_actor (i : string) (base : StatBlock) : Store.Actor string :=
  {| Store.actor_id := i; Store.name := i; Store.effects := [];
     Store.baseStats := base; Store.takesTourns := true;
     Store.effectsBySource := ∅ |}.

(** A fighter with base attack 20, a class granting +5 attack, a sword
    granting +5 attack and one buff whose attack multiplier is [mult]. *)
Definition fighter (mult : Q) : Char.Character string :=
  {| Char.actor := plain_actor "fighter" {["attack" := 20]};
     Char.equipment := [ {| item_ref := 1; item_id := "sword1"; item_name := "Sword";
                            item_grants := flat_grant "attack" 5 |} ];
     Char.class := {| class_grants := flat_grant "attack" 5 |};
     Char.buffs := [ {| buff_id := "curse"; buff_grants := percent_grant "attack" mult |} ] |}.



(** An actor object as the scheduler holds it: the reference that keys the
    schedule's [Map], and the object as it is when the call is made. *)
Definition Held (T : Type) : Type := nat * T.

Definition held_ref {T} (a : Held T) : nat := a.1.


Definition effectiveSpeed {Eff} (a : Held (Char.Character Eff)) : option Q :=
  Char.effectiveStat a.2 "speed".

(** The scheduler's view of an actor of [src/lib]: its [useTurnOrder]. *)
Definition actor_takesTurns (a : Held Lib.Actor) : bool := Lib.takesTurns a.2.

Definition empty_schedule : Scheduler.Schedule nat :=
  {| Scheduler.currentTick := 0; Scheduler.actorSchedule := ∅ |}.

(** Two swords that are distinct objects holding the same [id]. *)
Definition sword_a : Item :=
  {| item_ref := 10; item_id := "sword"; item_name := "Sword A";
     item_grants := flat_grant "attack" 5 |}.

Definition sword_b : Item :=
  {| item_ref := 11; item_id := "sword"; item_name := "Sword B";
     item_grants := flat_grant "attack" 7 |}.

(** An actor without stats or effects, and effects that all listen for
    damage events. *)
Definition bare_actor : Store.Actor string := plain_actor "hero" ∅.

Definition damage_only : string → list string := λ _, ["damage"].

(** One effect object added under two sources, then the first source
    removed. *)
Definition double_add : list (Store.StoreOp string) :=
  [ Store.OpAdd "burn" "item:sword1";
    Store.OpAdd "burn" "buff:rage";
    Store.OpRemoveSource "item:sword1" ].

(** Two actors with 100 and 200 hit points. *)
Definition arena : Pipeline.World :=
  <["hero" := Pipeline.mkActorState 100 100]>
    (<["orc" := Pipeline.mkActorState 200 200]> ∅).

(** The hero attacks the orc for [base] damage. *)
Definition attack (base : Q) : Pipeline.EventRequest :=
  {| Pipeline.rq_type := "damage"; Pipeline.rq_source := "hero";
     Pipeline.rq_target := "orc"; Pipeline.rq_values := {["damage" := base]};
     Pipeline.rq_flags := ∅; Pipeline.rq_chainOrigin := None |}.



(** The add-10 effect registered first, then an add-7 effect of the orc
    (which does not apply to the hero's attacks), the multiply-by-1.5 effect
    last. *)
Definition law_listeners : gmap string (list Pipeline.Effect) :=
  Registry.register
    (Registry.register
       (Registry.register ∅ (Registry.onAttack_addDamage "add10" "hero" 10))
       (Registry.onAttack_addDamage "orcAdd7" "orc" 7))
    (Registry.onAttack_multiplyDamage "times1.5" "hero" 1.5).

Definition law_pipeline : Pipeline.Pipeline :=
  Pipeline.submit (Pipeline.new_Pipeline law_listeners arena)
                  (Pipeline.rootEvent (attack 50)).

(** The meta-modification scenario: a +20 modifier of the hero amplified by
    1.5 through an ally's meta-modification. *)
Definition amplify_listeners : gmap string (list Pipeline.Effect) :=
  Registry.register
    (Registry.register ∅ (Registry.onAttack_addDamage "add20" "hero" 20))
    (Registry.amplifyBonuses "amplify" "bard" "add20" 1.5).

Definition amplify_pipeline : Pipeline.Pipeline :=
  Pipeline.submit (Pipeline.new_Pipeline amplify_listeners arena)
                  (Pipeline.rootEvent (attack 100)).

(** The life-steal scenario: a wounded hero with a +20% modifier and a
    30% life steal attacks for 50. *)
Definition wounded_arena : Pipeline.World :=
  <["hero" := Pipeline.mkActorState 90 100]> arena.

Definition lifesteal_listeners : gmap string (list Pipeline.Effect) :=
  Registry.register
    (Registry.register ∅ (Registry.onAttack_percentDamage "plus20pct" "hero" 0.2))
    (Registry.onDamage_lifeSteal "lifesteal" "hero" 0.3).

Definition lifesteal_pipeline : Pipeline.Pipeline :=
  Pipeline.submit (Pipeline.new_Pipeline lifesteal_listeners wounded_arena)
                  (Pipeline.rootEvent (attack 50)).

(** The hit points of an actor, if it exists. *)
Definition hp_of (p : Pipeline.Pipeline) (who : string) : option Q :=
  Pipeline.hp <$> Pipeline.world p !! who.

(** The orc echoes every damage event it receives: a chain that would
    recurse for ever. *)
Definition echo_listeners : gmap string (list Pipeline.Effect) :=
  Registry.register ∅ (Registry.onDamaged_echo "echo" "orc").

Definition echo_pipeline : Pipeline.Pipeline :=
  Pipeline.submit (Pipeline.new_Pipeline echo_listeners arena)
                  (Pipeline.rootEvent (attack 50)).

(** The same attack on the same orc, submitted with its [cancelled] marker
    already set. *)
Definition cancelled_pipeline : Pipeline.Pipeline :=
  Pipeline.submit (Pipeline.new_Pipeline echo_listeners arena)
                  (Pipeline.set_cancelled (Pipeline.rootEvent (attack 50)) true).


(** The orc blocks (the roll is forced to succeed), would block again with
    a second shield, and would echo the damage if it went through. *)
Definition block_listeners : gmap string (list Pipeline.Effect) :=
  Registry.register
    (Registry.register
       (Registry.register ∅ (Registry.onDamaged_block "shield" "orc" true))
       (Registry.onDamaged_block "shield2" "orc" true))
    (Registry.onDamaged_echo "echo" "orc").

Definition block_pipeline : Pipeline.Pipeline :=
  Pipeline.submit (Pipeline.new_Pipeline block_listeners arena)
                  (Pipeline.rootEvent (attack 50)).

(** Two effects from a sword and one from a buff; the buff's effect is
    removed, then the sword is taken off. *)
Definition equip_and_strip : list (Store.StoreOp string) :=
  [ Store.OpAdd "burn" "item:sword1";
    Store.OpAdd "chill" "buff:frost";
    Store.OpAdd "bleed" "item:sword1";
    Store.OpRemove "chill";
    Store.OpRemoveSource "item:sword1" ].

End Scenario.

(** ** Design notes, "Loop Prevention": helpers on events *)
Module Debug.
Import Pipeline.

(** [traceEventChain(event)] of the notes, returning what it logs:
<<
    let current = event
    while (current) { console.log(current.type); current = current.parentEvent }
>>  *)
Fixpoint traceEventChain (event : Event) : list string :=
  match event with
  | mkEvent type _ _ _ _ _ _ _ parent _ _ =>
      type :: match parent with
              | Some p => traceEventChain p
              | None => []
              end
  end.

(** The chain of parents records the depth: a root has depth 0 and a child
    is one deeper than its parent, all the way up. *)
Fixpoint chain_ok (event : Event) : Prop :=
  match event with
  | mkEvent _ _ _ _ _ _ _ d parent _ _ =>
      match parent with
      | Some p => d = S (depth p) ∧ chain_ok p
      | None => d = O
      end
  end.

End Debug.

(** ** [src/bin/inkTest.tsx]: the counter component *)
Module Ink.

(** The component instance: the [counter] state of [useState(0)] and whether
    the interval set by the effect is still alive. *)
Record Counter : Type := mkCounter {
  counter : nat;
  timer : bool
}.

(** What can happen to a mounted component: the interval elapses, React
    renders again, or the component is unmounted. *)
Inductive Happening : Type :=
| IntervalElapsed
| Rerender
| Unmount.

(** Mounting: [useState(0)], and the effect runs and sets the interval. *)
Definition mount : Counter := {| counter := 0; timer := true |}.

(** The interval callback [setCounter(previousCounter => previousCounter + 1)];
    a cleared interval does not call back. *)
Definition intervalElapsed (c : Counter) : Counter :=
  if timer c then {| counter := S (counter c); timer := timer c |} else c.

(** The cleanup [clearInterval(timer)]. *)
Definition unmount (c : Counter) : Counter :=
  {| counter := counter c; timer := false |}.

(** One happening.  The dependency array of the effect is empty, so a new
    render neither clears the interval nor sets another one. *)
Definition happen (c : Counter) (h : Happening) : Counter :=
  match h with
  | IntervalElapsed => intervalElapsed c
  | Rerender => c
  | Unmount => unmount c
  end.

Definition run (hs : list Happening) : Counter := foldl happen mount hs.

(** The element the component returns. *)
Record BoxElement : Type := mkBox {
  width : nat;
  height : nat;
  borderColor : string;
  borderStyle : string;
  text_color : string;
  text : string
}.

Definition render (c : Counter) : BoxElement :=
  {| width := 40; height := 20; borderColor := "green"; borderStyle := "classic";
     text_color := "green";
     text := pretty (counter c) +:+ " tests passed" |}.

(** The number of times the interval elapsed before the first unmount. *)
Fixpoint elapsed_while_mounted (hs : list Happening) : nat :=
  match hs with
  | [] => O
  | IntervalElapsed :: rest => S (elapsed_while_mounted rest)
  | Rerender :: rest => elapsed_while_mounted rest
  | Unmount :: _ => O
  end.

End Ink.

(** ** Further concrete data *)
Module Cases.
Import Grants.

(** A sword whose grant holds a stat bonus and two effect definitions. *)
Definition flame_sword : Item :=
  {| item_ref := 2; item_id := "flamesword"; item_name := "Flame Sword";
     item_grants :=
       {| stats := Some {| flat := Some {["attack" := 10]}; percent := None |};
          actions := None;
          effects := Some [ {| effectType := "onAttack_addDamage";
                               params := {["amount" := PNum 5]} |};
                            {| effectType := "onAttack_burn";
                               params := {["chance" := PNum 0.4]} |} ] |} |}.

(** The factory call of the concrete stores: the effect is named after its
    type and its owner. *)
Definition name_effect (def : EffectDefinition) (owner : string) : string :=
  effectType def +:+ "@" +:+ owner.

End Cases.

(* ===================================================================== *)
(** * Part II: the properties                                             *)
(* ===================================================================== *)

(** ** The stat enumeration and the actor defaults *)
Section LibFacts.
Import Lib.

Lemma STATS_members_complete (s : STATS) : s ∈ STATS_members.
Proof. destruct s; unfold STATS_members; set_solver. Qed.

Lemma STATS_value_inj (s t : STATS) : STATS_value s = STATS_value t → s = t.
Proof. destruct s, t; simpl; intros Heq; try reflexivity; discriminate Heq. Qed.

(** C9.  The stat identifiers of the code are exactly the five of the enum
    [STATS]: its values are "stat." followed by strength, dexterity,
    intelligence, luck and wisdom, they are pairwise distinct, every
    [StatFlat] and [StatMult] (alone or inside an [ActorProperty]) refers to
    one of them, and neither a speed nor an hp identifier is a member. *)
Theorem stat_identifiers_exact :
  STATS_value <$> STATS_members
    = ["stat.strength"; "stat.dexterity"; "stat.intelligence"; "stat.luck"; "stat.wisdom"]
  ∧ NoDup (STATS_value <$> STATS_members)
  ∧ (∀ s : STATS, s ∈ STATS_members)
  ∧ (∀ s : STATS, ∃ n,
        n ∈ ["strength"; "dexterity"; "intelligence"; "luck"; "wisdom"]
        ∧ STATS_value s = "stat." +:+ n)
  ∧ (∀ f : StatFlat, sf_stat f ∈ STATS_members)
  ∧ (∀ m : StatMult, sm_stat m ∈ STATS_members)
  ∧ (∀ p : ActorProperty, Forall (λ s, s ∈ STATS_members) (property_stat_refs p))
  ∧ (∀ s : STATS, STATS_value s ∉ ["stat.speed"; "stat.hp"; "speed"; "hp"])
  ∧ STATS_of_string <$> ["stat.speed"; "stat.hp"; "speed"; "hp"]
      = [None; None; None; None]
  ∧ (∀ s : STATS, STATS_of_string (STATS_value s) = Some s).
Proof.
  repeat split.
  - apply (bool_decide_unpack _); vm_compute; exact I.
  - apply STATS_members_complete.
  - intros s. destruct s; eexists; (split; [| reflexivity]); set_solver.
  - intros f. apply STATS_members_complete.
  - intros m. apply STATS_members_complete.
  - intros p. apply Forall_forall. intros s _. apply STATS_members_complete.
  - intros s. destruct s; apply (bool_decide_unpack _); vm_compute; exact I.
  - intros s. destruct s; reflexivity.
Qed.

End LibFacts.

(** ** The Stat Aggregator and the grants *)
Section CharFacts.
Import Grants Char Scenario.

Context {Eff : Type} `{EqDecision Eff}.
Variable eventTypes : Eff → list string.
Variable createEffect : EffectDefinition → string → Eff.

Lemma or_default_zero (x : option Q) : Js.or_default x 0 == default 0 x.
Proof.
  destruct x as [v|]; simpl; [| reflexivity].
  destruct (Qeq_bool v 0) eqn:Hz; [| reflexivity].
  apply Qeq_bool_iff in Hz. symmetry. exact Hz.
Qed.

Lemma or_default_one (x : option Q) :
  (∀ v, x = Some v → ¬ v == 0) → Js.or_default x 1.0 == default 1 x.
Proof.
  intros Hnz. destruct x as [v|]; simpl; [| reflexivity].
  destruct (Qeq_bool v 0) eqn:Hz; [| reflexivity].
  apply Qeq_bool_iff in Hz. destruct (Hnz v eq_refl Hz).
Qed.

Lemma foldl_plus_foldr {B : Type} (f g : B → Q) (l : list B) (a : Q) :
  Forall (λ x, f x == g x) l →
  foldl (λ acc x, acc + f x) a l == a + foldr Qplus 0 (g <$> l).
Proof.
  intros Hfg. revert a. induction Hfg as [| x l Hx _ IH]; intros a; simpl.
  - ring.
  - rewrite IH, Hx. symmetry. apply Qplus_assoc.
Qed.

Lemma foldl_mult_foldr {B : Type} (f g : B → Q) (l : list B) (a : Q) :
  Forall (λ x, f x == g x) l →
  foldl (λ acc x, acc * f x) a l == a * foldr Qmult 1 (g <$> l).
Proof.
  intros Hfg. revert a. induction Hfg as [| x l Hx _ IH]; intros a; simpl.
  - ring.
  - rewrite IH, Hx. symmetry. apply Qmult_assoc.
Qed.

(** Away from zero multipliers the getter computes the composition rule:
    (base + flat contributions) * product of the percent multipliers. *)
Lemma effectiveStat_composition (c : Character Eff) (statId : string) :
  no_zero_percent c statId →
  match effectiveStat c statId, effectiveStat_spec c statId with
  | Some v, Some v' => v == v'
  | None, None => True
  | _, _ => False
  end.
Proof.
  intros Hnz. unfold effectiveStat, effectiveStat_spec.
  destruct (Store.baseStats (actor c) !! statId) as [base|]; [| exact I].
  unfold flat_sum, percent_product.
  rewrite (foldl_plus_foldr _ (λ item, default 0 (flat_of (item_grants item) statId))).
  - rewrite (foldl_mult_foldr _ (λ buff, default 1 (percent_of (buff_grants buff) statId))).
    + simpl. rewrite or_default_zero. ring.
    + apply Forall_forall. intros buff Hin. apply or_default_one.
      intros v Hv. exact (Hnz buff v Hin Hv).
  - apply Forall_forall. intros item _. apply or_default_zero.
Qed.

(** The getter returns a number whenever the base stat block has the key:
    no grant, present or absent, makes it fail. *)
Lemma effectiveStat_defined (c : Character Eff) (statId : string) (base : Q) :
  Store.baseStats (actor c) !! statId = Some base → is_Some (effectiveStat c statId).
Proof. intros Hbase. unfold effectiveStat. rewrite Hbase. by eexists. Qed.

(** A source that grants nothing for the stat leaves the result as it is:
    an absent flat grant adds 0 and an absent percent grant multiplies by 1. *)
Lemma absent_grant_neutral (g : PropertyGrant) (statId : string) :
  flat_of g statId = None → percent_of g statId = None →
  Js.or_default (flat_of g statId) 0 == 0 ∧ Js.or_default (percent_of g statId) 1.0 == 1.
Proof. intros -> ->. split; reflexivity. Qed.

(** C2.  With a buff whose attack multiplier is 0 the getter returns the
    flat sum 30, where the product of the multipliers makes the composition
    rule give 0: the [|| 1.0] default replaces the zero multiplier by 1.0. *)
Theorem effectiveStat_zero_multiplier_ignored :
  (∃ v, effectiveStat (fighter 0) "attack" = Some v ∧ v == 30)
  ∧ (∃ v', effectiveStat_spec (fighter 0) "attack" = Some v' ∧ v' == 0)
  ∧ (∃ v, effectiveStat (fighter 0) "attack" = Some v
       ∧ ∃ v1, effectiveStat (fighter 1) "attack" = Some v1 ∧ v == v1).
Proof.
  split; [| split].
  - eexists. split; [vm_compute; reflexivity | reflexivity].
  - eexists. split; [vm_compute; reflexivity | reflexivity].
  - eexists. split; [vm_compute; reflexivity |].
    eexists. split; [vm_compute; reflexivity | reflexivity].
Qed.

Lemma equip_fold_frame (item : Item) (defs : list EffectDefinition)
    (st : Character Eff * gmap string (list (Eff * string))) :
  let step := λ (st : Character Eff * gmap string (list (Eff * string))) def,
    let effect := createEffect def (Store.actor_id (actor st.1)) in
    let r := Store.addEffect eventTypes (actor st.1) st.2 effect
                             ("item:" +:+ item_id item) in
    (set_actor st.1 r.1, r.2) in
  equipment (foldl step st defs).1 = equipment st.1
  ∧ class (foldl step st defs).1 = class st.1
  ∧ buffs (foldl step st defs).1 = buffs st.1.
Proof.
  intros step. revert st. induction defs as [| def defs IH]; intros st; simpl.
  - auto.
  - destruct (IH (step st def)) as (He & Hc & Hb).
    rewrite He, Hc, Hb. auto.
Qed.

End CharFacts.

(** ** The Turn Scheduler *)
Section SchedulerFacts.
Import Scheduler.

Context {A K : Type} `{Countable K}.
Variable ident : A → K.
Variable takesTurns : A → bool.
Variable effectiveSpeed : A → option Q.
Variable round : Q → Z.

Lemma calls_cons (s : Schedule K) (c : Call A) (cs : list (Call A)) :
  calls ident takesTurns effectiveSpeed round s (c :: cs)
  = call ident takesTurns effectiveSpeed round s c
      ≫= λ s1, calls ident takesTurns effectiveSpeed round s1 cs.
Proof.
  unfold calls. simpl.
  destruct (call ident takesTurns effectiveSpeed round s c) as [s1|]; [reflexivity |].
  simpl. induction cs as [| c' cs IH]; [reflexivity | exact IH].
Qed.

(** A call lets no actor into the schedule that does not take turns: the
    entry of a reference stays absent unless the call is about an object
    with that reference whose flag is set. *)
Lemma call_keeps_out (s s' : Schedule K) (c : Call A) (k : K) :
  (∀ a, call_actor c = Some a → ident a = k → takesTurns a = false) →
  actorSchedule s !! k = None →
  call ident takesTurns effectiveSpeed round s c = Some s' →
  actorSchedule s' !! k = None.
Proof.
  intros Hflag Hout Hcall.
  destruct c as [a | a | a m | a | a extra |]; simpl in Hcall.
  - injection Hcall as <-. unfold addActor.
    destruct (takesTurns a) eqn:Ht; [| exact Hout].
    simpl. rewrite lookup_insert_ne; [exact Hout |].
    intros Heq. rewrite (Hflag a eq_refl Heq) in Ht. discriminate Ht.
  - injection Hcall as <-. unfold removeActor. simpl.
    apply lookup_delete_None. right. exact Hout.
  - unfold scheduleNext in Hcall.
    destruct (takesTurns a) eqn:Ht.
    + destruct (delay_for effectiveSpeed round a (default 1.0 m)) as [d|];
        [| discriminate Hcall].
      injection Hcall as <-. simpl. rewrite lookup_insert_ne; [exact Hout |].
      intros Heq. rewrite (Hflag a eq_refl Heq) in Ht. discriminate Ht.
    + injection Hcall as <-. exact Hout.
  - injection Hcall as <-. unfold grantImmediateAction.
    destruct (takesTurns a) eqn:Ht; [| exact Hout].
    simpl. rewrite lookup_insert_ne; [exact Hout |].
    intros Heq. rewrite (Hflag a eq_refl Heq) in Ht. discriminate Ht.
  - injection Hcall as <-. unfold delay. simpl.
    apply lookup_alter_None. exact Hout.
  - unfold advance in Hcall.
    destruct (min_ticks (actorSchedule s)) as [least|]; [| discriminate Hcall].
    simpl in Hcall.
    destruct (list_find _ _) as [[i [k' t]]|]; [| discriminate Hcall].
    injection Hcall as <-. simpl. rewrite lookup_fmap, Hout. reflexivity.
Qed.

Lemma calls_keep_out (cs : list (Call A)) (s s' : Schedule K) (k : K) :
  (∀ c a, c ∈ cs → call_actor c = Some a → ident a = k → takesTurns a = false) →
  actorSchedule s !! k = None →
  calls ident takesTurns effectiveSpeed round s cs = Some s' →
  actorSchedule s' !! k = None.
Proof.
  revert s. induction cs as [| c cs IH]; intros s Hflag Hout Hrun.
  - injection Hrun as <-. exact Hout.
  - rewrite calls_cons in Hrun.
    destruct (call ident takesTurns effectiveSpeed round s c) as [s1|] eqn:Hc;
      [| discriminate Hrun].
    simpl in Hrun. apply (IH s1); [| | exact Hrun].
    + intros c' a Hin. apply Hflag. right. exact Hin.
    + apply (call_keeps_out s s1 c k); [| exact Hout | exact Hc].
      intros a. apply Hflag. left.
Qed.

(** The rounding rule agrees on equal rationals and leaves whole numbers
    as they are (rounding up, down or to nearest all do). *)
Hypothesis round_proper : ∀ q q' : Q, q == q' → round q = round q'.
Hypothesis round_whole : ∀ z : Z, round (inject_Z z) = z.


End SchedulerFacts.

Section SchedulerCases.
Import Lib Scenario Scheduler.




(** C10.  A newly constructed [Actor] (and [Character]) has [useTurnOrder]
    false and its [effects] and [properties] absent.  An actor object never
    appears in the turn schedule unless it has opted in: whatever calls the
    scheduler receives, whatever the speeds and the rounding rule, the
    reference of an object keeps out of the schedule as long as every call
    about it finds it without the flag set (as [new Actor()] leaves it);
    and an object that has set the flag joins on [addActor]. *)
Theorem new_Actor_defaults :
  useTurnOrder new_Actor = Some false
  ∧ effects new_Actor = None
  ∧ properties new_Actor = None
  ∧ useTurnOrder new_Character = Some false
  ∧ effects new_Character = None
  ∧ properties new_Character = None
  ∧ (∀ (speed : Held Actor → option Q) (round : Q → Z) (r : nat)
       (cs : list (Call (Held Actor))) (s s' : Schedule nat),
       (∀ c a, c ∈ cs → call_actor c = Some a → held_ref a = r →
               useTurnOrder a.2 ≠ Some true) →
       actorSchedule s !! r = None →
       calls held_ref actor_takesTurns speed round s cs = Some s' →
       actorSchedule s' !! r = None)
  ∧ (∀ (speed : Held Actor → option Q) (round : Q → Z) (r : nat)
       (cs : list (Call (Held Actor))) (s s' : Schedule nat),
       (∀ c a, c ∈ cs → call_actor c = Some a → held_ref a = r →
               a.2 = new_Actor ∨ a.2 = new_Character) →
       actorSchedule s !! r = None →
       calls held_ref actor_takesTurns speed round s cs = Some s' →
       actorSchedule s' !! r = None)
  ∧ (∀ (r : nat) (s : Schedule nat),
       actorSchedule
         (addActor held_ref actor_takesTurns s (r, set_useTurnOrder new_Actor true))
         !! r = Some 0%Z).
Proof.
  assert (Hgen : ∀ (speed : Held Actor → option Q) (round : Q → Z) (r : nat)
       (cs : list (Call (Held Actor))) (s s' : Schedule nat),
       (∀ c a, c ∈ cs → call_actor c = Some a → held_ref a = r →
               useTurnOrder a.2 ≠ Some true) →
       actorSchedule s !! r = None →
       calls held_ref actor_takesTurns speed round s cs = Some s' →
       actorSchedule s' !! r = None).
  { intros speed round r cs s s' Hflag Hout Hrun.
    apply (calls_keep_out held_ref actor_takesTurns speed round cs s s' r);
      [| exact Hout | exact Hrun].
    intros c a Hin Hc Hr. specialize (Hflag c a Hin Hc Hr).
    unfold actor_takesTurns, takesTurns.
    destruct (useTurnOrder a.2) as [[|]|]; [| reflexivity | reflexivity].
    destruct (Hflag eq_refl). }
  do 6 (split; [reflexivity |]).
  split; [exact Hgen |]. split.
  - intros speed round r cs s s' Hnew. apply Hgen.
    intros c a Hin Hc Hr. destruct (Hnew c a Hin Hc Hr) as [-> | ->]; discriminate.
  - intros r s. unfold addActor. simpl. apply lookup_insert_eq.
Qed.

(** Three calls about a new actor object and one about an object that has
    opted in: only the latter is scheduled. *)
Lemma new_Actor_stays_out :
  ∃ s', calls held_ref actor_takesTurns (λ _, Some 100) Qceiling empty_schedule
          [ CallAddActor (7%nat, new_Actor);
            CallGrantImmediateAction (7%nat, new_Actor);
            CallScheduleNext (7%nat, new_Actor) None;
            CallAddActor (8%nat, set_useTurnOrder new_Actor true);
            CallScheduleNext (8%nat, set_useTurnOrder new_Actor true) None;
            CallDelay (7%nat, new_Actor) 5;
            CallAdvance ] = Some s'
        ∧ actorSchedule s' !! 7%nat = None
        ∧ actorSchedule s' !! 8%nat = Some 0%Z.
Proof.
  eexists. split; [vm_compute; reflexivity |]. split.
  - apply (proj1 (proj2 (proj2 (proj2 (proj2 (proj2 (proj2 (proj2 new_Actor_defaults)))))))
             (λ _, Some 100) Qceiling 7%nat
             [ CallAddActor (7%nat, new_Actor);
               CallGrantImmediateAction (7%nat, new_Actor);
               CallScheduleNext (7%nat, new_Actor) None;
               CallAddActor (8%nat, set_useTurnOrder new_Actor true);
               CallScheduleNext (8%nat, set_useTurnOrder new_Actor true) None;
               CallDelay (7%nat, new_Actor) 5;
               CallAdvance ] empty_schedule).
    + intros c a Hin Hc Hr.
      repeat (apply elem_of_cons in Hin; destruct Hin as [-> | Hin]);
        try (apply elem_of_nil in Hin; destruct Hin);
        simpl in Hc; try discriminate Hc; injection Hc as <-;
        simpl in Hr; try discriminate Hr; left; reflexivity.
    + reflexivity.
    + vm_compute. reflexivity.
  - vm_compute. reflexivity.
Defined.

End SchedulerCases.

(** ** The effect store *)
Section StoreFacts.
Import Store.

Context {Eff : Type} `{EqDecision Eff}.
Variable eventTypes : Eff → list string.

Abbreviation Listeners := (gmap string (list (Eff * string))).

Lemma addEffect_consistent (a : Actor Eff) (p : Listeners) (e : Eff) (s : string) :
  e ∉ effects a → consistent a → consistent (addEffect eventTypes a p e s).1.
Proof.
  intros Hfresh [Hiff Hone Hnd Hbnd].
  assert (Hout : ∀ s' l, effectsBySource a !! s' = Some l → e ∉ l).
  { intros s' l Hl Hin. apply Hfresh, Hiff. eauto. }
  constructor; simpl.
  - intros x. rewrite elem_of_app, list_elem_of_singleton. split.
    + intros [Hx | ->].
      * apply Hiff in Hx as (s0 & l0 & Hl0 & Hx).
        destruct (decide (s0 = s)) as [-> |Hne].
        -- exists s, (l0 ++ [e]). rewrite lookup_insert_eq, Hl0. simpl. set_solver.
        -- exists s0, l0. rewrite lookup_insert_ne by done. done.
      * exists s, (default [] (effectsBySource a !! s) ++ [e]).
        rewrite lookup_insert_eq. set_solver.
    + intros (s0 & l0 & Hl0 & Hx).
      destruct (decide (s0 = s)) as [-> |Hne].
      * rewrite lookup_insert_eq in Hl0. injection Hl0 as <-.
        apply elem_of_app in Hx as [Hx | Hx]; [left | right; set_solver].
        destruct (effectsBySource a !! s) as [l1|] eqn:Hl1; simpl in Hx; [| set_solver].
        apply Hiff. eauto.
      * rewrite lookup_insert_ne in Hl0 by done. left. apply Hiff. eauto.
  - intros s1 s2 l1 l2 x Hl1 Hl2 Hx1 Hx2.
    destruct (decide (s1 = s2)) as [|Hne]; [done | exfalso].
    assert (Hcase : ∀ sa sb la lb, sa ≠ sb →
              <[s := default [] (effectsBySource a !! s) ++ [e]]> (effectsBySource a) !! sa = Some la →
              <[s := default [] (effectsBySource a !! s) ++ [e]]> (effectsBySource a) !! sb = Some lb →
              x ∈ la → x ∈ lb → sa = s → False).
    { intros sa sb la lb Hab Hla Hlb Hxa Hxb ->.
      rewrite lookup_insert_eq in Hla. injection Hla as <-.
      rewrite lookup_insert_ne in Hlb by done.
      apply elem_of_app in Hxa as [Hxa | Hxa].
      - destruct (effectsBySource a !! s) as [l0|] eqn:Hl0; simpl in Hxa; [| set_solver].
        apply Hab. eapply Hone; eauto.
      - apply list_elem_of_singleton in Hxa as ->. exact (Hout _ _ Hlb Hxb). }
    destruct (decide (s1 = s)) as [Hs1|Hs1]; [eapply (Hcase s1 s2); eauto |].
    destruct (decide (s2 = s)) as [Hs2|Hs2]; [eapply (Hcase s2 s1); eauto |].
    rewrite lookup_insert_ne in Hl1 by done. rewrite lookup_insert_ne in Hl2 by done.
    apply Hne. eapply Hone; eauto.
  - apply NoDup_app. split; [done |]. split; [| apply NoDup_singleton].
    intros x Hx Hx'. apply list_elem_of_singleton in Hx' as ->. done.
  - intros s0 l0 Hl0. destruct (decide (s0 = s)) as [-> |Hne].
    + rewrite lookup_insert_eq in Hl0. injection Hl0 as <-.
      apply NoDup_app. split; [| split; [| apply NoDup_singleton]].
      * destruct (effectsBySource a !! s) as [l1|] eqn:Hl1; simpl; [eauto | apply NoDup_nil_2].
      * intros x Hx Hx'. apply list_elem_of_singleton in Hx' as ->.
        destruct (effectsBySource a !! s) as [l1|] eqn:Hl1; simpl in Hx; [| set_solver].
        exact (Hout _ _ Hl1 Hx).
    + rewrite lookup_insert_ne in Hl0 by done. eauto.
Qed.

Lemma filter_keeps_all {A : Type} (P : A → Prop) `{!∀ x, Decision (P x)} (l : list A) :
  (∀ x, P x) → filter P l = l.
Proof.
  intros HP. induction l as [| x l IH]; [done |].
  rewrite filter_cons_True by apply HP. by rewrite IH.
Qed.

Lemma removeEffect_consistent (a : Actor Eff) (p : Listeners) (e : Eff) :
  consistent a → consistent (removeEffect a p e).1.
Proof.
  intros [Hiff Hone Hnd Hbnd]. constructor; simpl.
  - intros x. rewrite list_elem_of_filter. split.
    + intros [Hne Hx]. apply Hiff in Hx as (s0 & l0 & Hl0 & Hx).
      exists s0, (filter (λ y, y ≠ e) l0). rewrite lookup_fmap, Hl0. split; [done |].
      apply list_elem_of_filter. done.
    + intros (s0 & l0 & Hl0 & Hx). rewrite lookup_fmap in Hl0.
      destruct (effectsBySource a !! s0) as [l1|] eqn:Hl1; [| done].
      injection Hl0 as <-. apply list_elem_of_filter in Hx as [Hne Hx].
      split; [done |]. apply Hiff. eauto.
  - intros s1 s2 l1 l2 x Hl1 Hl2 Hx1 Hx2. rewrite lookup_fmap in Hl1, Hl2.
    destruct (effectsBySource a !! s1) as [k1|] eqn:Hk1; [| done].
    destruct (effectsBySource a !! s2) as [k2|] eqn:Hk2; [| done].
    injection Hl1 as <-. injection Hl2 as <-.
    apply list_elem_of_filter in Hx1 as [_ Hx1]. apply list_elem_of_filter in Hx2 as [_ Hx2].
    eapply Hone; eauto.
  - apply NoDup_filter. done.
  - intros s0 l0 Hl0. rewrite lookup_fmap in Hl0.
    destruct (effectsBySource a !! s0) as [l1|] eqn:Hl1; [| done].
    injection Hl0 as <-. apply NoDup_filter. eauto.
Qed.

Lemma foldl_remove_one (l : list Eff) (a : Actor Eff) (p : Listeners) :
  effects (foldl remove_one (a, p) l).1 = filter (λ x, x ∉ l) (effects a)
  ∧ effectsBySource (foldl remove_one (a, p) l).1 = effectsBySource a
  ∧ actor_id (foldl remove_one (a, p) l).1 = actor_id a
  ∧ (foldl remove_one (a, p) l).2 = foldl (λ q e, unregisterEffect e (actor_id a) q) p l.
Proof.
  revert a p. induction l as [| e l IH]; intros a p.
  - simpl. repeat split. symmetry. apply filter_keeps_all. intros x. apply not_elem_of_nil.
  - change (foldl remove_one (a, p) (e :: l))
      with (foldl remove_one (set_effects a (filter (λ x, x ≠ e) (effects a)),
                              unregisterEffect e (actor_id a) p) l).
    destruct (IH (set_effects a (filter (λ x, x ≠ e) (effects a)))
                 (unregisterEffect e (actor_id a) p)) as (He & Hs & Hi & Hp).
    rewrite He, Hs, Hi, Hp. simpl. repeat split.
    rewrite list_filter_filter. apply list_filter_iff.
    intros x. rewrite not_elem_of_cons. tauto.
Qed.

Lemma unregister_all_lookup (l : list Eff) (i : string) (p : Listeners) (t : string)
    (regs : list (Eff * string)) :
  foldl (λ q e, unregisterEffect e i q) p l !! t = Some regs →
  ∀ e, e ∈ l → (e, i) ∉ regs.
Proof.
  revert p. induction l as [| e0 l IH]; intros p Hregs e He; simpl in *.
  - by apply not_elem_of_nil in He.
  - apply elem_of_cons in He as [-> | He]; [| by eapply IH].
    clear IH. revert regs Hregs.
    assert (Hgen : ∀ q, (∀ regs, q !! t = Some regs → (e0, i) ∉ regs) →
              ∀ regs, foldl (λ q e, unregisterEffect e i q) q l !! t = Some regs →
              (e0, i) ∉ regs).
    { induction l as [| e1 l IHl]; intros q Hq regs Hregs; simpl in *; [eauto |].
      eapply IHl; [| exact Hregs]. intros regs' Hregs'.
      unfold unregisterEffect in Hregs'. rewrite lookup_fmap in Hregs'.
      destruct (q !! t) as [r0|] eqn:Hr0; [| done]. injection Hregs' as <-.
      intros Hin. apply list_elem_of_filter in Hin as [_ Hin]. exact (Hq _ eq_refl Hin). }
    apply Hgen. intros regs Hregs. unfold unregisterEffect in Hregs.
    rewrite lookup_fmap in Hregs. destruct (p !! t) as [r0|]; [| done].
    injection Hregs as <-. intros Hin. apply list_elem_of_filter in Hin as [Hne _]. done.
Qed.

Lemma removeEffectsFromSource_consistent (a : Actor Eff) (p : Listeners) (s : string) :
  consistent a → consistent (removeEffectsFromSource a p s).1.
Proof.
  intros [Hiff Hone Hnd Hbnd]. unfold removeEffectsFromSource.
  destruct (foldl_remove_one (default [] (effectsBySource a !! s)) a p)
    as (He & Hs & _ & _).
  constructor; simpl; rewrite ?He, ?Hs.
  - intros x. rewrite list_elem_of_filter. split.
    + intros [Hout Hx]. apply Hiff in Hx as (s0 & l0 & Hl0 & Hx).
      exists s0, l0. split; [| done]. rewrite lookup_delete_ne; [done |].
      intros <-. rewrite Hl0 in Hout. done.
    + intros (s0 & l0 & Hl0 & Hx).
      apply lookup_delete_Some in Hl0 as [Hne Hl0]. split; [| apply Hiff; eauto].
      destruct (effectsBySource a !! s) as [l1|] eqn:Hl1; simpl; [| apply not_elem_of_nil].
      intros Hx1. apply Hne. eapply Hone; eauto.
  - intros s1 s2 l1 l2 x Hl1 Hl2 Hx1 Hx2.
    apply lookup_delete_Some in Hl1 as [_ Hl1]. apply lookup_delete_Some in Hl2 as [_ Hl2].
    eapply Hone; eauto.
  - apply NoDup_filter. done.
  - intros s0 l0 Hl0. apply lookup_delete_Some in Hl0 as [_ Hl0]. eauto.
Qed.

Lemma apply_op_consistent (st : Actor Eff * Listeners) (op : StoreOp Eff) :
  match op with OpAdd e _ => e ∉ effects st.1 | _ => True end →
  consistent st.1 → consistent (apply_op eventTypes st op).1.
Proof.
  destruct op as [e s | e | s]; intros Hfresh Hc.
  - exact (addEffect_consistent st.1 st.2 e s Hfresh Hc).
  - exact (removeEffect_consistent st.1 st.2 e Hc).
  - exact (removeEffectsFromSource_consistent st.1 st.2 s Hc).
Qed.

Lemma new_store_consistent (a : Actor Eff) :
  effects a = [] → effectsBySource a = ∅ → consistent a.
Proof.
  intros Hflat Hidx. constructor; rewrite ?Hflat, ?Hidx.
  - intros e. split.
    + intros He. by apply not_elem_of_nil in He.
    + intros (s & l & Hl & _). by rewrite lookup_empty in Hl.
  - intros s1 s2 l1 l2 e Hl1. by rewrite lookup_empty in Hl1.
  - apply NoDup_nil_2.
  - intros s l Hl. by rewrite lookup_empty in Hl.
Qed.

(** C6 (amended).  Starting from a consistent store, after any sequence of
    [addEffect], [removeEffect] and [removeEffectsFromSource] in which no
    effect is added while the store holds it, the source index is a
    partition-consistent view of the flat list; a store without effects is
    consistent, so this holds for every run from a new actor.  And after
    [removeEffectsFromSource(s)], whatever came before, no effect of the
    bucket of [s] is left in the flat list or in the listener index of any
    event type, and the bucket is gone. *)
Theorem source_index_partition :
  (∀ (ops : list (StoreOp Eff)) (a : Actor Eff) (p : Listeners),
      consistent a → adds_fresh eventTypes (a, p) ops →
      consistent (run_ops eventTypes (a, p) ops).1)
  ∧ (∀ (ops : list (StoreOp Eff)) (a : Actor Eff) (p : Listeners),
      effects a = [] → effectsBySource a = ∅ → adds_fresh eventTypes (a, p) ops →
      consistent (run_ops eventTypes (a, p) ops).1)
  ∧ (∀ (a : Actor Eff) (p : Listeners) (s : string) (e : Eff),
      e ∈ default [] (effectsBySource a !! s) →
      let r := removeEffectsFromSource a p s in
      (e ∉ effects r.1)
      ∧ effectsBySource r.1 !! s = None
      ∧ ∀ t regs, r.2 !! t = Some regs → (e, actor_id a) ∉ regs).
Proof.
  assert (Hrun : ∀ (ops : list (StoreOp Eff)) (a : Actor Eff) (p : Listeners),
            consistent a → adds_fresh eventTypes (a, p) ops →
            consistent (run_ops eventTypes (a, p) ops).1).
  { intros ops. induction ops as [| op ops IH]; intros a p Hc Hf; simpl in *; [done |].
    destruct Hf as [Hop Hf].
    destruct (apply_op eventTypes (a, p) op) as [a' p'] eqn:Hst.
    apply IH; [| done].
    change a' with (a', p').1. rewrite <- Hst. by apply apply_op_consistent. }
  split; [exact Hrun | split].
  - intros ops a p Hflat Hidx. apply Hrun. by apply new_store_consistent.
  - intros a p s e He. unfold removeEffectsFromSource.
    destruct (foldl_remove_one (default [] (effectsBySource a !! s)) a p)
      as (Hfl & Hs & _ & Hp).
    simpl. rewrite Hfl, Hs, Hp. split; [| split].
    + intros Hin. apply list_elem_of_filter in Hin as [Hout _]. done.
    + apply lookup_delete_eq.
    + intros t regs Hregs. by eapply unregister_all_lookup.
Qed.
End StoreFacts.

Lemma bare_actor_consistent : Store.consistent Scenario.bare_actor.
Proof. by apply new_store_consistent. Qed.

(** A run of the store that respects the usage rule ends consistent, and
    removing the sword leaves none of its effects behind. *)
Lemma equip_and_strip_consistent :
  Store.consistent
    (Store.run_ops Scenario.damage_only (Scenario.bare_actor, ∅) Scenario.equip_and_strip).1.
Proof.
  apply (proj1 (proj2 (source_index_partition Scenario.damage_only))).
  - reflexivity.
  - reflexivity.
  - repeat split; apply (bool_decide_unpack _); vm_compute; exact I.
Defined.

(** C6 as stated fails: the same effect added under two sources and one of
    the sources removed leaves the effect in the bucket of the other source
    but not in the flat list. *)
Lemma double_add_breaks_source_index :
  let st := Store.run_ops Scenario.damage_only (Scenario.bare_actor, ∅) Scenario.double_add in
  Store.consistent Scenario.bare_actor
  ∧ Store.effectsBySource st.1 !! "buff:rage" = Some ["burn"]
  ∧ ("burn" ∉ Store.effects st.1)
  ∧ ¬ Store.consistent st.1.
Proof.
  assert (Hb : Store.effectsBySource
                 (Store.run_ops Scenario.damage_only (Scenario.bare_actor, ∅)
                                Scenario.double_add).1 !! "buff:rage" = Some ["burn"])
    by (vm_compute; reflexivity).
  assert (Hf : "burn" ∉ Store.effects
                 (Store.run_ops Scenario.damage_only (Scenario.bare_actor, ∅)
                                Scenario.double_add).1)
    by (apply (bool_decide_unpack _); vm_compute; exact I).
  simpl. split; [exact bare_actor_consistent |]. split; [exact Hb |]. split; [exact Hf |].
  intros Hc. apply Hf. apply (Store.flat_iff_bucket _ Hc).
  exists "buff:rage", ["burn"]. split; [exact Hb | apply list_elem_of_here].
Qed.

(** ** The pipeline: execution order *)
Section PipelineOrder.
Import Pipeline Registry Scenario.

Lemma insert_by_priority_perm (f : Effect) (l : list Effect) :
  insert_by_priority f l ≡ₚ f :: l.
Proof.
  induction l as [| g l IH]; simpl; [done |].
  destruct (priority g <=? priority f)%Z; [done |].
  rewrite IH. apply perm_swap.
Qed.

Lemma by_priority_perm (l : list Effect) : by_priority l ≡ₚ l.
Proof.
  induction l as [| f l IH]; simpl; [done |].
  rewrite insert_by_priority_perm. by rewrite IH.
Qed.

Lemma insert_by_priority_descending (f : Effect) (l : list Effect) :
  descending l → descending (insert_by_priority f l).
Proof.
  induction 1 as [| g l Hl IH Hg]; simpl.
  - repeat constructor.
  - destruct (priority g <=? priority f)%Z eqn:Hle.
    + apply Z.leb_le in Hle. constructor; [by constructor |].
      constructor; [done |].
      eapply Forall_impl; [exact Hg |]. simpl. intros x Hx. lia.
    + apply Z.leb_gt in Hle. constructor; [done |].
      rewrite insert_by_priority_perm. constructor; [lia | done].
Qed.

Lemma by_priority_descending (l : list Effect) : descending (by_priority l).
Proof.
  induction l as [| f l IH]; simpl; [constructor |].
  by apply insert_by_priority_descending.
Qed.

(** In a descending list an effect of strictly higher priority comes first. *)
Lemma descending_split (s : list Effect) (x y : Effect) (rest : list Effect) :
  descending s → s ≡ₚ x :: y :: rest → (priority y < priority x)%Z →
  ∃ s1 s2 s3, s = s1 ++ x :: s2 ++ y :: s3 ∧ s1 ++ s2 ++ s3 ≡ₚ rest.
Proof.
  intros Hs Hperm Hlt.
  assert (Hx : x ∈ s) by (rewrite Hperm; apply list_elem_of_here).
  apply list_elem_of_split in Hx as (s1 & r & ->).
  assert (Hrest : s1 ++ r ≡ₚ y :: rest).
  { apply (Permutation_cons_inv (a := x)). rewrite <- Hperm.
    by rewrite Permutation_middle. }
  assert (Hy : y ∈ s1 ++ r) by (rewrite Hrest; apply list_elem_of_here).
  apply elem_of_app in Hy as [Hy | Hy].
  - exfalso.
    assert (priority x ≤ priority y)%Z; [| lia].
    apply (StronglySorted_app_1_elem_of _ _ _ _ _ Hs Hy). apply list_elem_of_here.
  - apply list_elem_of_split in Hy as (s2 & s3 & ->).
    exists s1, s2, s3. split; [done |].
    apply (Permutation_cons_inv (a := y)). rewrite <- Hrest.
    rewrite !app_assoc. by rewrite <- Permutation_middle, <- !app_assoc.
Qed.


Lemma set_currentValue_id (e : Event) : set_currentValue e (currentValue e) = e.
Proof. by destruct e. Qed.

Lemma quiet_silent (f : Effect) (e : Event) (w : World) : quiet f e w → silent f e w.
Proof. intros Hq. rewrite <- (set_currentValue_id e). apply Hq. Qed.

Lemma quiet_set_currentValue (f : Effect) (e : Event) (w : World) (v : gmap string Q) :
  quiet f e w → quiet f (set_currentValue e v) w.
Proof. intros Hq v'. exact (Hq v'). Qed.

Lemma modify_with_silent (ics : list Interceptor) (w : World) (e : Event) (f : Effect) :
  silent f e w → modify_with ics w e f = e.
Proof.
  unfold silent, modify_with. destruct (handler f) as [h | h | h | h]; try done.
  intros ->. simpl. by destruct e.
Qed.

Lemma run_modification_acc (ics : list Interceptor) (w : World) (effs : list Effect)
    (e : Event) (tr : list Entry) :
  foldl (modification_step ics w) (e, tr) effs
  = ((run_modification ics effs e w).1, tr ++ (run_modification ics effs e w).2).
Proof.
  unfold run_modification. revert e tr.
  induction effs as [| f effs IH]; intros e tr.
  - simpl. by rewrite app_nil_r.
  - change (foldl (modification_step ics w) (e, tr) (f :: effs))
      with (foldl (modification_step ics w)
                  (modify_with ics w e f, tr ++ [Ran (effect_id f) e]) effs).
    change (foldl (modification_step ics w) (e, []) (f :: effs))
      with (foldl (modification_step ics w)
                  (modify_with ics w e f, [Ran (effect_id f) e]) effs).
    rewrite (IH _ (tr ++ _)), (IH _ [_]). simpl. by rewrite <- app_assoc.
Qed.

Lemma run_modification_cons (ics : list Interceptor) (w : World) (f : Effect)
    (effs : list Effect) (e : Event) :
  run_modification ics (f :: effs) e w
  = ((run_modification ics effs (modify_with ics w e f) w).1,
     Ran (effect_id f) e :: (run_modification ics effs (modify_with ics w e f) w).2).
Proof.
  unfold run_modification at 1.
  change (foldl (modification_step ics w) (e, []) (f :: effs))
    with (foldl (modification_step ics w)
                (modify_with ics w e f, [Ran (effect_id f) e]) effs).
  by rewrite run_modification_acc.
Qed.

Lemma run_modification_app (ics : list Interceptor) (w : World) (l1 l2 : list Effect)
    (e : Event) :
  run_modification ics (l1 ++ l2) e w
  = ((run_modification ics l2 (run_modification ics l1 e w).1 w).1,
     (run_modification ics l1 e w).2
       ++ (run_modification ics l2 (run_modification ics l1 e w).1 w).2).
Proof.
  revert e. induction l1 as [| f l1 IH]; intros e.
  - simpl. by destruct (run_modification ics l2 e w).
  - simpl. rewrite !run_modification_cons, IH. done.
Qed.

Lemma run_modification_silent (ics : list Interceptor) (w : World) (effs : list Effect)
    (e : Event) :
  Forall (λ f, silent f e w) effs → (run_modification ics effs e w).1 = e.
Proof.
  induction 1 as [| f effs Hf _ IH]; [done |].
  rewrite run_modification_cons. simpl.
  rewrite (modify_with_silent _ _ _ _ Hf). exact IH.
Qed.

Lemma run_modification_quiet (ics : list Interceptor) (w : World) (effs : list Effect)
    (e : Event) :
  Forall (λ f, quiet f e w) effs → (run_modification ics effs e w).1 = e.
Proof.
  intros Hq. apply run_modification_silent.
  eapply Forall_impl; [exact Hq |]. intros f. apply quiet_silent.
Qed.

Lemma run_meta_acc (w : World) (e : Event) (effs : list Effect)
    (acc : list Interceptor * list Entry) :
  acc.1 = [] → Forall (λ f, silent f e w) effs →
  (foldl (meta_step e w) acc effs).1 = [].
Proof.
  intros Hacc Hall. revert acc Hacc.
  induction Hall as [| f effs Hf _ IH]; intros acc Hacc; simpl; [done |].
  apply IH. unfold silent in Hf. unfold meta_step. destruct (handler f); try done.
  simpl. by rewrite Hacc, Hf.
Qed.

Lemma run_meta_silent (w : World) (e : Event) (effs : list Effect) :
  Forall (λ f, silent f e w) effs → (run_meta effs e w).1 = [].
Proof. intros Hall. by apply run_meta_acc. Qed.

Lemma effects_for_perm (ph : Phase) (l : gmap string (list Effect)) (e : Event)
    (regs : list Effect) :
  l !! ev_type e = Some regs →
  effects_for ph l e ≡ₚ filter (λ f, phase_of f = ph) regs.
Proof. intros Hregs. unfold effects_for. rewrite Hregs. apply by_priority_perm. Qed.

Lemma modify_with_addDamage (w : World) (e : Event) (eid o : string)
    (amount base : Q) :
  source e = o → currentValue e !! "damage" = Some base →
  modify_with [] w e (onAttack_addDamage eid o amount)
  = set_currentValue e (alter (λ v, v + amount) "damage" (currentValue e)).
Proof.
  intros Hs Hb. unfold modify_with. simpl. rewrite decide_True by done.
  simpl. unfold apply_delta. simpl. by rewrite Hb.
Qed.

Lemma modify_with_multiplyDamage (w : World) (e : Event) (eid o : string)
    (factor base : Q) :
  source e = o → currentValue e !! "damage" = Some base →
  modify_with [] w e (onAttack_multiplyDamage eid o factor)
  = set_currentValue e (alter (λ v, v + base * (factor - 1)) "damage" (currentValue e)).
Proof.
  intros Hs Hb. unfold modify_with. simpl. rewrite decide_True by done.
  rewrite Hb. simpl. unfold apply_delta. simpl. by rewrite Hb.
Qed.

(** C1.  In the modification phase of an event that carries a damage value
    [base], with a multiply-by-[m] effect (priority 100) and an add-[flat]
    effect (priority 50) of the event's source registered in any order
    among effects that do not apply, the multiplicative handler runs on the
    event as submitted, the additive one on the multiplied event, and the
    final current value is [base * m + flat]; it differs from
    [(base + flat) * m] whenever the two orders differ at all. *)
Theorem multiplier_runs_before_addition
    (l : gmap string (list Effect)) (w : World) (e : Event)
    (regs others : list Effect) (mulId addId : string) (base m flat : Q) :
  currentValue e !! "damage" = Some base →
  l !! ev_type e = Some regs →
  regs ≡ₚ onAttack_multiplyDamage mulId (source e) m
            :: onAttack_addDamage addId (source e) flat :: others →
  Forall (λ f, quiet f e w) others →
  let ics := (run_meta (effects_for PhMetaModification l e) e w).1 in
  let r := run_modification ics (effects_for PhModification l e) e w in
  (∃ v, currentValue r.1 !! "damage" = Some v
        ∧ v == base * m + flat
        ∧ (¬ flat * (m - 1) == 0 → ¬ v == (base + flat) * m))
  ∧ (∃ t1 t2 t3 e2 v2,
        r.2 = t1 ++ Ran mulId e :: t2 ++ Ran addId e2 :: t3
        ∧ currentValue e2 !! "damage" = Some v2 ∧ v2 == base * m).
Proof.
  intros Hbase Hregs Hperm Hothers ics r.
  set (mul := onAttack_multiplyDamage mulId (source e) m) in *.
  set (add := onAttack_addDamage addId (source e) flat) in *.
  (* no interceptor is registered *)
  assert (Hics : ics = []).
  { apply run_meta_silent. apply Forall_forall. intros f Hf.
    rewrite (effects_for_perm _ _ _ _ Hregs) in Hf.
    apply list_elem_of_filter in Hf as [Hph Hf].
    rewrite Hperm in Hf. apply elem_of_cons in Hf as [-> | Hf]; [done |].
    apply elem_of_cons in Hf as [-> | Hf]; [done |].
    apply quiet_silent. by eapply Forall_forall in Hothers. }
  (* the modification effects, in execution order *)
  destruct (descending_split (effects_for PhModification l e) mul add
              (filter (λ f, phase_of f = PhModification) others))
    as (s1 & s2 & s3 & Hsplit & Hrest).
  { apply by_priority_descending. }
  { rewrite (effects_for_perm _ _ _ _ Hregs), Hperm.
    rewrite !filter_cons_True by done. done. }
  { simpl. lia. }
  assert (Hquiet : Forall (λ f, quiet f e w) (s1 ++ s2 ++ s3)).
  { rewrite Hrest. apply Forall_forall. intros f Hf.
    apply list_elem_of_filter in Hf as [_ Hf]. by eapply Forall_forall in Hothers. }
  rewrite !Forall_app in Hquiet. destruct Hquiet as (Hq1 & Hq2 & Hq3).
  subst r. rewrite Hsplit, Hics. clear Hsplit.
  rewrite run_modification_app, run_modification_cons.
  rewrite run_modification_app, run_modification_cons. simpl.
  rewrite (run_modification_quiet _ _ s1 e Hq1).
  unfold mul at 1 3 4. rewrite (modify_with_multiplyDamage w e mulId (source e) m base eq_refl Hbase).
  set (e1 := set_currentValue e _).
  assert (Hq2' : Forall (λ f, quiet f e1 w) s2).
  { eapply Forall_impl; [exact Hq2 |]. intros f. apply quiet_set_currentValue. }
  rewrite (run_modification_quiet _ _ s2 e1 Hq2').
  assert (Hb1 : currentValue e1 !! "damage" = Some (base + base * (m - 1))).
  { unfold e1. simpl. by rewrite lookup_alter_eq, Hbase. }
  unfold add at 1 2.
  rewrite (modify_with_addDamage w e1 addId (source e) flat _ eq_refl Hb1).
  set (e2 := set_currentValue e1 _).
  assert (Hq3' : Forall (λ f, quiet f e2 w) s3).
  { eapply Forall_impl; [exact Hq3 |]. intros f Hf v. exact (Hf v). }
  rewrite (run_modification_quiet _ _ s3 e2 Hq3').
  split.
  - exists (base + base * (m - 1) + flat). split; [| split; [ring |]].
    + unfold e2, e1. simpl. by rewrite !lookup_alter_eq, Hbase.
    + intros Hne Heq. apply Hne.
      assert (Hdiff : flat * (m - 1)
                      == (base + flat) * m - (base + base * (m - 1) + flat)) by ring.
      rewrite Hdiff, <- Heq. ring.
  - eexists _, _, _, e1, (base + base * (m - 1)). split; [reflexivity |].
    split; [| ring]. unfold e1. simpl. by rewrite lookup_alter_eq, Hbase.
Qed.

(** The law at 50, 1.5 and 10: the result is 85 and not 90, the handlers ran
    multiplier first although the addition was registered first, and a full
    drain takes 85 hit points from the target. *)
Lemma multiplier_law_85 :
  let e := rootEvent (attack 50) in
  let ics := (run_meta (effects_for PhMetaModification law_listeners e) e arena).1 in
  let r := run_modification ics (effects_for PhModification law_listeners e) e arena in
  (∃ v, currentValue r.1 !! "damage" = Some v ∧ v == 85 ∧ ¬ v == 90)
  ∧ ran_effects r.2 = ["times1.5"; "add10"; "orcAdd7"]
  ∧ (∃ a, world (drain 5 law_pipeline) !! "orc" = Some a ∧ hp a == 200 - 85).
Proof.
  destruct (multiplier_runs_before_addition law_listeners arena (rootEvent (attack 50))
              [onAttack_addDamage "add10" "hero" 10;
               onAttack_addDamage "orcAdd7" "orc" 7;
               onAttack_multiplyDamage "times1.5" "hero" 1.5]
              [onAttack_addDamage "orcAdd7" "orc" 7]
              "times1.5" "add10" 50 1.5 10) as [(v & Hv & Hval & _) _].
  - reflexivity.
  - vm_compute. reflexivity.
  - exact (Permutation_app_comm
             [onAttack_addDamage "add10" "hero" 10; onAttack_addDamage "orcAdd7" "orc" 7]
             [onAttack_multiplyDamage "times1.5" "hero" 1.5]).
  - repeat constructor.
  - split; [| split].
    + exists v. split; [exact Hv |]. split.
      * rewrite Hval. vm_compute. reflexivity.
      * rewrite Hval. vm_compute. discriminate.
    + vm_compute. reflexivity.
    + eexists. split; [vm_compute; reflexivity | vm_compute; reflexivity].
Defined.

End PipelineOrder.

(** ** The pipeline: what a turn of the loop leaves behind *)
Section PipelineSteps.
Import Pipeline Registry Scenario.

Lemma variant_refl (e : Event) : variant e e.
Proof.
  exists (currentValue e), (currentNaN e), (cancelled e).
  split; [by destruct e | reflexivity].
Qed.

Lemma variant_depth (e e' : Event) : variant e e' → depth e' = depth e.
Proof. by intros (v & n & b & -> & _). Qed.


Lemma variant_cancel (e e' : Event) (b : bool) : variant e e' → variant e (set_cancelled e' b).
Proof. intros (v & n & b' & -> & Hk). by exists v, n, b. Qed.

(** Deltas never take a key out of the current-value set. *)
Lemma apply_deltas_grow (ics : list Interceptor) (fid : string)
    (ds : list (string * Q)) (cur : gmap string Q * gset string) :
  dom cur.1 ∪ cur.2
  ⊆ dom (foldl (apply_delta ics fid) cur ds).1 ∪ (foldl (apply_delta ics fid) cur ds).2.
Proof.
  revert cur. induction ds as [| d ds IH]; intros cur; simpl; [done |].
  etrans; [| apply IH]. unfold apply_delta.
  destruct (cur.1 !! d.1); simpl; [by rewrite dom_alter_L | set_solver].
Qed.


Lemma variant_modify (ics : list Interceptor) (w : World) (e e' : Event) (f : Effect) :
  variant e e' → variant e (modify_with ics w e' f).
Proof.
  intros (v & n & b & -> & Hk). unfold modify_with.
  destruct (handler f) as [h | h | h | h]; try by exists v, n, b.
  simpl.
  set (r := foldl (apply_delta ics (effect_id f)) (v, n) _).
  exists r.1, r.2, b. split; [reflexivity |].
  etrans; [exact Hk |]. apply (apply_deltas_grow _ _ _ (v, n)).
Qed.

Lemma modify_with_cancelled (ics : list Interceptor) (w : World) (e : Event) (f : Effect) :
  cancelled (modify_with ics w e f) = cancelled e.
Proof. unfold modify_with. by destruct (handler f). Qed.

Lemma run_modification_cancelled (ics : list Interceptor) (w : World)
    (effs : list Effect) (e : Event) :
  cancelled (run_modification ics effs e w).1 = cancelled e.
Proof.
  revert e. induction effs as [| f effs IH]; intros e; [done |].
  rewrite run_modification_cons. simpl. by rewrite IH, modify_with_cancelled.
Qed.

Lemma run_modification_variant (ics : list Interceptor) (w : World) (effs : list Effect)
    (e0 e : Event) :
  variant e0 e →
  variant e0 (run_modification ics effs e w).1
  ∧ Forall (λ x, variant e0 (entry_event x)) (run_modification ics effs e w).2.
Proof.
  revert e. induction effs as [| f effs IH]; intros e He.
  - split; [done | constructor].
  - rewrite run_modification_cons. simpl.
    destruct (IH (modify_with ics w e f) (variant_modify ics w e0 e f He)) as [H1 H2].
    split; [done |]. by constructor.
Qed.




Lemma run_meta_trace (w : World) (e : Event) (effs : list Effect) :
  Forall (λ x, entry_event x = e) (run_meta effs e w).2.
Proof.
  unfold run_meta.
  assert (Hacc : ∀ acc, Forall (λ x, entry_event x = e) acc.2 →
            Forall (λ x, entry_event x = e) (foldl (meta_step e w) acc effs).2).
  { induction effs as [| f effs IH]; intros acc Hacc; simpl; [done |].
    apply IH. unfold meta_step. destruct (handler f); try done.
    simpl. apply Forall_app. split; [done |]. by repeat constructor. }
  apply Hacc. constructor.
Qed.

Lemma run_reaction_trace (w : World) (e : Event) (effs : list Effect) :
  Forall (λ x, entry_event x = e) (run_reaction effs e w).2.
Proof.
  unfold run_reaction.
  assert (Hacc : ∀ acc, Forall (λ x, entry_event x = e) acc.2 →
            Forall (λ x, entry_event x = e) (foldl (reaction_step e w) acc effs).2).
  { induction effs as [| f effs IH]; intros acc Hacc; simpl; [done |].
    apply IH. unfold reaction_step. destruct (handler f); try done.
    simpl. apply Forall_app. split; [done |]. by repeat constructor. }
  apply Hacc. constructor.
Qed.

Lemma run_validation_trace (w : World) (e : Event) (effs : list Effect) :
  Forall (λ x, entry_event x = e) (run_validation effs e w).2.
Proof.
  induction effs as [| f effs IH]; simpl; [constructor |].
  destruct (handler f) as [h | h | h | h]; try done.
  destruct (h e (owner f) w) as [[|]|]; simpl; by repeat constructor.
Qed.

(** Validation hands the event on as it is, or marked cancelled. *)
Lemma run_validation_event (w : World) (e : Event) (effs : list Effect) :
  (run_validation effs e w).1 = e
  ∨ (run_validation effs e w).1 = set_cancelled e true.
Proof.
  induction effs as [| f effs IH]; simpl; [by left |].
  destruct (handler f) as [h | h | h | h]; try done.
  destruct (h e (owner f) w) as [[|]|]; simpl; try done. by right.
Qed.

Lemma run_validation_variant (w : World) (e0 e : Event) (effs : list Effect) :
  variant e0 e → variant e0 (run_validation effs e w).1.
Proof.
  intros He. destruct (run_validation_event w e effs) as [-> | ->];
    [exact He | by apply variant_cancel].
Qed.

(** The marker is never cleared: an event that enters validation cancelled
    leaves it cancelled. *)
Lemma run_validation_keeps_cancelled (w : World) (e : Event) (effs : list Effect) :
  cancelled e = true → cancelled (run_validation effs e w).1 = true.
Proof.
  intros Hc. by destruct (run_validation_event w e effs) as [-> | ->].
Qed.

(** What one turn of the loop does to the queue and to the record. *)
Lemma step_cases (p p' : Pipeline) :
  step p = Some p' →
  ∃ e rest seg children,
    queue p = e :: rest
    ∧ trace p' = trace p ++ seg
    ∧ queue p' = rest ++ children
    ∧ listeners p' = listeners p
    ∧ maxDepth p' = maxDepth p
    ∧ Forall (λ x, variant e (entry_event x)) seg
    ∧ Forall (λ c, ∃ e2 rq, c = spawn e2 rq) children
    ∧ ((maxDepth p < depth e)%nat → seg = [Dropped e]).
Proof.
  unfold step. destruct (queue p) as [| e rest] eqn:Hq; [done |].
  destruct (decide (maxDepth p < depth e)%nat) as [Hdeep | Hok].
  - intros [= <-]. exists e, rest, [Dropped e], []. simpl.
    rewrite app_nil_r. repeat split; try done.
    repeat constructor. apply variant_refl.
  - set (meta := run_meta _ e (world p)).
    set (modif := run_modification meta.1 _ e (world p)).
    set (valid := run_validation _ modif.1 (world p)).
    destruct (run_modification_variant meta.1 (world p)
                (effects_for PhModification (listeners p) e) e e (variant_refl e))
      as [He2 Hmod]. fold modif in He2, Hmod.
    assert (Hmeta : Forall (λ x, variant e (entry_event x)) meta.2).
    { eapply Forall_impl; [apply run_meta_trace |]. simpl. intros x ->. apply variant_refl. }
    assert (Hvalid : Forall (λ x, variant e (entry_event x)) valid.2).
    { eapply Forall_impl; [apply run_validation_trace |]. simpl. by intros x ->. }
    assert (He3 : variant e valid.1) by (by apply run_validation_variant).
    destruct (cancelled valid.1).
    + intros [= <-].
      exists e, rest, (meta.2 ++ modif.2 ++ valid.2 ++ [Cancelled valid.1]), [].
      simpl. rewrite app_nil_r.
      do 5 (split; [done |]). split; [| split; [constructor | done]].
      rewrite !Forall_app. split; [exact Hmeta |]. split; [exact Hmod |].
      split; [exact Hvalid |]. by repeat constructor.
    + set (react := run_reaction _ valid.1 _).
      intros [= <-].
      exists e, rest, (meta.2 ++ modif.2 ++ valid.2 ++ [Resolved valid.1] ++ react.2),
             (spawn valid.1 <$> react.1). simpl.
      do 5 (split; [done |]). split; [| split; [| done]].
      * rewrite !Forall_app. split; [exact Hmeta |]. split; [exact Hmod |].
        split; [exact Hvalid |]. constructor; [exact He3 |].
        eapply Forall_impl; [apply run_reaction_trace |]. simpl. by intros x ->.
      * apply Forall_fmap, Forall_forall. intros rq _. simpl. by eexists _, _.
Qed.

Lemma processed_from_entries (P : Event → Prop) (tr : list Entry) :
  Forall (λ x, P (entry_event x)) tr → Forall P (processed tr).
Proof.
  induction 1 as [| x tr Hx _ IH]; [constructor |].
  unfold processed. simpl. destruct x; simpl; try by constructor. exact IH.
Qed.

Lemma processed_app (tr1 tr2 : list Entry) :
  processed (tr1 ++ tr2) = processed tr1 ++ processed tr2.
Proof. apply omap_app. Qed.

Lemma resolved_app (tr1 tr2 : list Entry) :
  resolved (tr1 ++ tr2) = resolved tr1 ++ resolved tr2.
Proof. apply omap_app. Qed.

Lemma resolved_ran_on (e : Event) (effs : list Effect) : resolved (ran_on e effs) = [].
Proof. induction effs as [| f effs IH]; [done | exact IH]. Qed.

Lemma run_meta_resolved (w : World) (e : Event) (effs : list Effect) :
  resolved (run_meta effs e w).2 = [].
Proof.
  unfold run_meta.
  assert (Hacc : ∀ acc, resolved acc.2 = [] →
            resolved (foldl (meta_step e w) acc effs).2 = []).
  { induction effs as [| f effs IH]; intros acc Hacc; simpl; [done |].
    apply IH. unfold meta_step. destruct (handler f); try done.
    simpl. by rewrite resolved_app, Hacc. }
  by apply Hacc.
Qed.

Lemma run_reaction_resolved (w : World) (e : Event) (effs : list Effect) :
  resolved (run_reaction effs e w).2 = [].
Proof.
  unfold run_reaction.
  assert (Hacc : ∀ acc, resolved acc.2 = [] →
            resolved (foldl (reaction_step e w) acc effs).2 = []).
  { induction effs as [| f effs IH]; intros acc Hacc; simpl; [done |].
    apply IH. unfold reaction_step. destruct (handler f); try done.
    simpl. by rewrite resolved_app, Hacc. }
  by apply Hacc.
Qed.

Lemma run_modification_resolved (ics : list Interceptor) (w : World)
    (effs : list Effect) (e : Event) :
  resolved (run_modification ics effs e w).2 = [].
Proof.
  revert e. induction effs as [| f effs IH]; intros e; [done |].
  rewrite run_modification_cons. simpl. apply IH.
Qed.

Lemma run_validation_resolved (w : World) (e : Event) (effs : list Effect) :
  resolved (run_validation effs e w).2 = [].
Proof.
  induction effs as [| f effs IH]; simpl; [done |].
  destruct (handler f) as [h | h | h | h]; try done.
  by destruct (h e (owner f) w) as [[|]|].
Qed.

Lemma run_validation_denied (w : World) (e : Event) (before after : list Effect)
    (v : Effect) :
  Forall (λ f, allows f e w) before → denies v e w →
  run_validation (before ++ v :: after) e w
  = (set_cancelled e true, ran_on e (before ++ [v])).
Proof.
  intros Hbefore (hv & Hhv & Hdeny).
  induction Hbefore as [| f before (h & Hh & Hallow) _ IH]; simpl.
  - by rewrite Hhv, Hdeny.
  - rewrite Hh, IH. by destruct (h e (owner f) w) as [[|]|].
Qed.











Lemma step_guarded (p p' : Pipeline) :
  step p = Some p' →
  Forall (λ e, depth e ≤ maxDepth p)%nat (processed (trace p)) →
  Forall (λ e, depth e ≤ maxDepth p')%nat (processed (trace p'))
  ∧ maxDepth p' = maxDepth p.
Proof.
  intros Hstep Htr.
  destruct (step_cases p p' Hstep)
    as (e & rest & seg & children & Hqueue & Htrace & _ & _ & Hmax & Hseg & _ & Hdeep).
  split; [| done]. rewrite Hmax, Htrace, processed_app. apply Forall_app. split; [done |].
  destruct (decide (maxDepth p < depth e)%nat) as [Hd | Hd].
  - rewrite (Hdeep Hd). constructor.
  - apply processed_from_entries. eapply Forall_impl; [exact Hseg |].
    intros x Hx. simpl. rewrite (variant_depth _ _ Hx). lia.
Qed.

Lemma drain_guarded (n : nat) (p : Pipeline) :
  Forall (λ e, depth e ≤ maxDepth p)%nat (processed (trace p)) →
  Forall (λ e, depth e ≤ maxDepth p)%nat (processed (trace (drain n p)))
  ∧ maxDepth (drain n p) = maxDepth p.
Proof.
  revert p. induction n as [| n IH]; intros p Hp; simpl; [done |].
  destruct (step p) as [p' |] eqn:Hstep; [| done].
  destruct (step_guarded p p' Hstep Hp) as [Hp' Hmax].
  destruct (IH p' Hp') as [H1 H2]. rewrite <- Hmax, H2. split; [exact H1 | done].
Qed.

Lemma submit_trace (p : Pipeline) (es : list Event) :
  trace (foldl submit p es) = trace p ∧ maxDepth (foldl submit p es) = maxDepth p.
Proof.
  revert p. induction es as [| e es IH]; intros p; simpl; [done |].
  destruct (IH (submit p e)) as [H1 H2]. by rewrite H1, H2.
Qed.

(** C3.  A dequeued event whose depth exceeds the maximum is dropped before
    any phase: the turn leaves the actors and the listeners as they were,
    the rest of the queue exactly as it was, spawns nothing, and records
    only the drop.  Hence no event deeper than the maximum is ever handled,
    cancelled or resolved, whatever the fuel; with the default maximum of
    10 that excludes depth 11 and beyond.  The echo chain, which would
    recurse for ever, is resolved at depths 0 to 10, dropped at depth 11,
    and leaves the queue empty. *)
Theorem depth_guard_drops :
  (∀ (p : Pipeline) (e : Event) (rest : list Event),
      queue p = e :: rest → (maxDepth p < depth e)%nat →
      step p = Some {| queue := rest; world := world p; listeners := listeners p;
                       maxDepth := maxDepth p; trace := trace p ++ [Dropped e] |})
  ∧ (∀ (n : nat) (p : Pipeline),
      Forall (λ e, depth e ≤ maxDepth p)%nat (processed (trace p)) →
      Forall (λ e, depth e ≤ maxDepth p)%nat (processed (trace (drain n p))))
  ∧ (∀ (n : nat) (l : gmap string (list Effect)) (w : World) (es : list Event),
      Forall (λ e, depth e ≤ 10)%nat
             (processed (trace (drain n (foldl submit (new_Pipeline l w) es)))))
  ∧ (let p := drain 12 Scenario.echo_pipeline in
     queue p = []
     ∧ depth <$> resolved (trace p) = [0; 1; 2; 3; 4; 5; 6; 7; 8; 9; 10]%nat
     ∧ depth <$> dropped (trace p) = [11]%nat).
Proof.
  split; [| split; [| split]].
  - intros p e rest Hq Hdeep. unfold step. rewrite Hq. by rewrite decide_True.
  - intros n p Hp. by apply drain_guarded.
  - intros n l w es.
    destruct (submit_trace (new_Pipeline l w) es) as [Htr Hmax].
    destruct (drain_guarded n (foldl submit (new_Pipeline l w) es)) as [Hall _].
    + rewrite Htr. constructor.
    + by rewrite Hmax in Hall.
  - vm_compute. done.
Qed.

(** What the turn of a dequeued event within the depth limit does, by the
    [cancelled] marker of the event as validation leaves it. *)
Lemma step_by_marker (p : Pipeline) (e : Event) (rest : list Event) :
  let w := world p in
  let meta := run_meta (effects_for PhMetaModification (listeners p) e) e w in
  let modif := run_modification meta.1 (effects_for PhModification (listeners p) e) e w in
  let valid := run_validation (effects_for PhValidation (listeners p) modif.1) modif.1 w in
  queue p = e :: rest →
  (depth e ≤ maxDepth p)%nat →
  (cancelled valid.1 = true →
     ∃ p', step p = Some p'
           ∧ world p' = world p
           ∧ queue p' = rest
           ∧ trace p' = trace p ++ meta.2 ++ modif.2 ++ valid.2 ++ [Cancelled valid.1]
           ∧ resolved (trace p') = resolved (trace p))
  ∧ (cancelled valid.1 = false →
     ∃ p', step p = Some p'
           ∧ world p' = resolve valid.1 w
           ∧ queue p' = rest ++ (spawn valid.1 <$>
               (run_reaction (effects_for PhReaction (listeners p) valid.1) valid.1
                             (resolve valid.1 w)).1)
           ∧ resolved (trace p') = resolved (trace p) ++ [valid.1]).
Proof.
  intros w meta modif valid Hq Hdepth.
  unfold step. rewrite Hq. rewrite decide_False by lia.
  fold w. fold meta. fold modif. fold valid.
  split; intros Hc; rewrite Hc.
  - eexists. split; [reflexivity |]. simpl. do 3 (split; [reflexivity |]).
    rewrite !resolved_app. unfold meta, modif, valid.
    rewrite run_meta_resolved, run_modification_resolved, run_validation_resolved.
    simpl. by rewrite app_nil_r.
  - eexists. split; [reflexivity |]. cbn [world queue trace].
    do 2 (split; [reflexivity |]).
    rewrite !resolved_app. unfold meta, modif, valid.
    rewrite run_meta_resolved, run_modification_resolved, run_validation_resolved,
      run_reaction_resolved.
    simpl. by rewrite ?app_nil_r.
Qed.

(** C4.  When the validation effects of an event are [before ++ v :: after],
    no handler of [before] returns false and the handler of [v] does,
    validation hands on the event with its [cancelled] marker set to true,
    having run the handlers of [before] and [v] and none of [after]; the
    turn records the cancellation of that marked event, no actor changes,
    no event is spawned, nothing is resolved and no reaction handler runs.
    It is the marker that cancels: whenever validation leaves an event
    marked (be it that the event was submitted marked), the turn skips
    resolution and reaction in the same way, and whenever it leaves the
    event unmarked the event is resolved. *)
Theorem first_denial_cancels :
  (∀ (p : Pipeline) (e : Event) (rest : list Event)
     (before after : list Effect) (v : Effect),
     let w := world p in
     let meta := run_meta (effects_for PhMetaModification (listeners p) e) e w in
     let modif :=
       run_modification meta.1 (effects_for PhModification (listeners p) e) e w in
     queue p = e :: rest →
     (depth e ≤ maxDepth p)%nat →
     effects_for PhValidation (listeners p) modif.1 = before ++ v :: after →
     Forall (λ f, allows f modif.1 w) before →
     denies v modif.1 w →
     ∃ p' e3,
       step p = Some p'
       ∧ run_validation (before ++ v :: after) modif.1 w
         = (e3, ran_on modif.1 (before ++ [v]))
       ∧ cancelled e3 = true
       ∧ e3 = set_cancelled modif.1 true
       ∧ world p' = world p
       ∧ queue p' = rest
       ∧ trace p' = trace p ++ meta.2 ++ modif.2 ++ ran_on modif.1 (before ++ [v])
                            ++ [Cancelled e3]
       ∧ resolved (trace p') = resolved (trace p))
  ∧ (∀ (p : Pipeline) (e : Event) (rest : list Event),
       let w := world p in
       let meta := run_meta (effects_for PhMetaModification (listeners p) e) e w in
       let modif :=
         run_modification meta.1 (effects_for PhModification (listeners p) e) e w in
       let valid :=
         run_validation (effects_for PhValidation (listeners p) modif.1) modif.1 w in
       queue p = e :: rest →
       (depth e ≤ maxDepth p)%nat →
       (cancelled e = true → cancelled valid.1 = true)
       ∧ (cancelled valid.1 = true →
            ∃ p', step p = Some p'
                  ∧ world p' = world p
                  ∧ queue p' = rest
                  ∧ trace p' = trace p ++ meta.2 ++ modif.2 ++ valid.2
                                       ++ [Cancelled valid.1]
                  ∧ resolved (trace p') = resolved (trace p))
       ∧ (cancelled valid.1 = false →
            ∃ p', step p = Some p'
                  ∧ world p' = resolve valid.1 w
                  ∧ resolved (trace p') = resolved (trace p) ++ [valid.1])).
Proof.
  split.
  - intros p e rest before after v w meta modif Hq Hdepth Hvalidators Hbefore Hdeny.
    destruct (step_by_marker p e rest Hq Hdepth) as [Hmarked _].
    fold w in Hmarked. fold meta in Hmarked. fold modif in Hmarked.
    rewrite Hvalidators in Hmarked.
    rewrite (run_validation_denied w modif.1 before after v Hbefore Hdeny) in Hmarked.
    simpl in Hmarked.
    destruct (Hmarked eq_refl) as (p' & Hstep & Hworld & Hqueue & Htrace & Hres).
    exists p', (set_cancelled modif.1 true).
    split; [exact Hstep |].
    split; [exact (run_validation_denied w modif.1 before after v Hbefore Hdeny) |].
    by repeat split.
  - intros p e rest w meta modif valid Hq Hdepth.
    destruct (step_by_marker p e rest Hq Hdepth) as [Hmarked Hclear].
    fold w in Hmarked, Hclear. fold meta in Hmarked, Hclear.
    fold modif in Hmarked, Hclear. fold valid in Hmarked, Hclear.
    split; [| split].
    + intros Hc. apply run_validation_keeps_cancelled.
      unfold modif. by rewrite run_modification_cancelled.
    + exact Hmarked.
    + intros Hc. destruct (Hclear Hc) as (p' & Hstep & Hworld & _ & Hres).
      by exists p'.
Qed.

(** The end-to-end scenarios of the specification run as described:
    100 damage with a +20 modifier amplified by 1.5 resolves as 130. *)
Example meta_modification_scenario :
  ∃ h, hp_of (drain 5 amplify_pipeline) "orc" = Some h ∧ h == 200 - 130.
Proof. eexists. split; vm_compute; reflexivity. Qed.

(** 50 damage with +20% resolves as 60, and the spawned heal of
    (60 - 50) * 0.3 = 3 is resolved in the same drain. *)
Example life_steal_scenario :
  (∃ h, hp_of (drain 5 lifesteal_pipeline) "orc" = Some h ∧ h == 200 - 60)
  ∧ (∃ h, hp_of (drain 5 lifesteal_pipeline) "hero" = Some h ∧ h == 90 + 3)
  ∧ queue (drain 5 lifesteal_pipeline) = []
  ∧ depth <$> resolved (trace (drain 5 lifesteal_pipeline)) = [0; 1]%nat.
Proof.
  split; [| split; [| split]].
  - eexists. split; vm_compute; reflexivity.
  - eexists. split; vm_compute; reflexivity.
  - vm_compute. reflexivity.
  - vm_compute. reflexivity.
Qed.

(** The echo chain reaches the guard after eleven turns. *)
Lemma echo_chain_dropped_at_11 :
  ∃ e, queue (drain 11 echo_pipeline) = [e]
       ∧ depth e = 11%nat
       ∧ step (drain 11 echo_pipeline)
         = Some {| queue := []; world := world (drain 11 echo_pipeline);
                   listeners := listeners (drain 11 echo_pipeline);
                   maxDepth := maxDepth (drain 11 echo_pipeline);
                   trace := trace (drain 11 echo_pipeline) ++ [Dropped e] |}.
Proof.
  eexists. split; [vm_compute; reflexivity |]. split; [reflexivity |].
  apply (proj1 depth_guard_drops).
  - vm_compute. reflexivity.
  - vm_compute. lia.
Defined.

(** The block scenario: the first shield denies and the event is recorded
    with its marker set; the second shield and the echo reaction never run
    and the target keeps its hit points.  The same attack submitted already
    marked is skipped in the same way, and submitted unmarked to an orc
    without shields it is resolved. *)
Lemma block_cancels_attack :
  (∃ p' e3, step block_pipeline = Some p'
            ∧ cancelled e3 = true
            ∧ trace p' = [Ran "shield" (rootEvent (attack 50)); Cancelled e3]
            ∧ world p' = arena
            ∧ queue p' = []
            ∧ ran_effects (trace p') = ["shield"]
            ∧ resolved (trace p') = [])
  ∧ (∃ p', step cancelled_pipeline = Some p'
           ∧ world p' = arena
           ∧ queue p' = []
           ∧ resolved (trace p') = [])
  ∧ (∃ p', step echo_pipeline = Some p'
           ∧ hp_of p' "orc" = Some (200 - 50)
           ∧ resolved (trace p') = [rootEvent (attack 50)]).
Proof.
  split; [| split].
  - destruct (proj1 first_denial_cancels block_pipeline (rootEvent (attack 50)) [] []
                [onDamaged_block "shield2" "orc" true]
                (onDamaged_block "shield" "orc" true))
      as (p' & e3 & Hstep & Hrun & Hc & He3 & Hworld & Hqueue & Htrace & Hres).
    + reflexivity.
    + simpl. lia.
    + vm_compute. reflexivity.
    + constructor.
    + eexists. split; [reflexivity | vm_compute; reflexivity].
    + exists p', e3. split; [exact Hstep |]. split; [exact Hc |].
      split; [rewrite Htrace; vm_compute; reflexivity |].
      split; [exact Hworld |]. split; [exact Hqueue |].
      split; [rewrite Htrace; vm_compute; reflexivity | exact Hres].
  - destruct (proj2 first_denial_cancels cancelled_pipeline
                (set_cancelled (rootEvent (attack 50)) true) [])
      as (Hkeep & Hmarked & _).
    + reflexivity.
    + simpl. lia.
    + destruct (Hmarked (Hkeep eq_refl)) as (p' & Hstep & Hworld & Hqueue & _ & Hres).
      exists p'. by repeat split.
  - destruct (proj2 first_denial_cancels echo_pipeline (rootEvent (attack 50)) [])
      as (_ & _ & Hclear).
    + reflexivity.
    + simpl. lia.
    + destruct (Hclear eq_refl) as (p' & Hstep & Hworld & Hres).
      exists p'. split; [exact Hstep |]. split.
      * unfold hp_of. rewrite Hworld. vm_compute. reflexivity.
      * rewrite Hres. vm_compute. reflexivity.
Defined.





End PipelineSteps.
(** ** The effect store: edges, frames and round trips *)
Section StoreMore.
Import Store.

Context {Eff : Type} `{EqDecision Eff}.
Variable eventTypes : Eff → list string.

Lemma set_effectsBySource_id (a : Actor Eff) :
  set_effectsBySource a (effectsBySource a) = a.
Proof using Type. by destruct a. Qed.

Lemma set_effects_id (a : Actor Eff) : set_effects a (effects a) = a.
Proof using Type. by destruct a. Qed.

Lemma actor_eq (a b : Actor Eff) :
  actor_id a = actor_id b → name a = name b → effects a = effects b →
  baseStats a = baseStats b → takesTourns a = takesTourns b →
  effectsBySource a = effectsBySource b → a = b.
Proof using Type. destruct a, b; simpl; by intros -> -> -> -> -> ->. Qed.

Lemma filter_keeps_members {A : Type} (P : A → Prop) `{!∀ x, Decision (P x)}
    (l : list A) :
  (∀ x, x ∈ l → P x) → filter P l = l.
Proof using Type.
  induction l as [| x l IH]; intros HP; [done |].
  rewrite filter_cons_True by (apply HP, list_elem_of_here).
  rewrite IH; [done |]. intros y Hy. apply HP. by apply list_elem_of_further.
Qed.

(** The loop of [removeEffectsFromSource], summarised. *)
Lemma remove_loop (l : list Eff) (a : Actor Eff) (p : gmap string (list (Eff * string))) :
  (foldl remove_one (a, p) l).1 = set_effects a (filter (λ x, x ∉ l) (effects a))
  ∧ (foldl remove_one (a, p) l).2
    = foldl (λ q e, unregisterEffect e (actor_id a) q) p l.
Proof using Type.
  revert a p. induction l as [| e l IH]; intros a p.
  - simpl. split; [| done]. rewrite filter_keeps_members; [by rewrite set_effects_id |].
    intros x _. apply not_elem_of_nil.
  - change (foldl remove_one (a, p) (e :: l))
      with (foldl remove_one (set_effects a (filter (λ x, x ≠ e) (effects a)),
                              unregisterEffect e (actor_id a) p) l).
    destruct (IH (set_effects a (filter (λ x, x ≠ e) (effects a)))
                 (unregisterEffect e (actor_id a) p)) as (Ha & Hp).
    rewrite Ha, Hp. split; [| done]. unfold set_effects. simpl. f_equal.
    rewrite list_filter_filter. apply list_filter_iff.
    intros x. rewrite not_elem_of_cons. split; intros [H1 H2]; split; assumption.
Qed.

Lemma remove_absent_bucket
    (a : Actor Eff) (p : gmap string (list (Eff * string))) (s : string) :
  effectsBySource a !! s = None → removeEffectsFromSource a p s = (a, p).
Proof using Type.
  intros Hs. unfold removeEffectsFromSource. rewrite Hs. simpl.
  rewrite delete_id by done. by rewrite set_effectsBySource_id.
Qed.

(** X1.  [removeEffectsFromSource] on a source that contributed nothing is
    not an error and removes nothing: the flat list and the listener index
    are unchanged, the other buckets are unchanged, and when the source has
    no bucket at all the call returns the actor and the index as they were. *)
Theorem removeEffectsFromSource_unknown_source
    (a : Actor Eff) (p : gmap string (list (Eff * string))) (s : string) :
  default [] (effectsBySource a !! s) = [] →
  let r := removeEffectsFromSource a p s in
  effects r.1 = effects a
  ∧ r.2 = p
  ∧ (∀ s', s' ≠ s → effectsBySource r.1 !! s' = effectsBySource a !! s')
  ∧ (effectsBySource a !! s = None → r = (a, p)).
Proof.
  intros Hempty r. subst r. split; [| split; [| split]].
  - unfold removeEffectsFromSource. rewrite Hempty. done.
  - unfold removeEffectsFromSource. rewrite Hempty. done.
  - intros s' Hne. unfold removeEffectsFromSource. rewrite Hempty. simpl.
    by rewrite lookup_delete_ne.
  - apply remove_absent_bucket.
Qed.

Lemma filter_drops_all {A : Type} (P : A → Prop) `{!∀ x, Decision (P x)}
    (l : list A) :
  (∀ x, x ∈ l → ¬ P x) → filter P l = [].
Proof.
  induction l as [| x l IH]; intros HP; [done |].
  rewrite filter_cons_False by (apply HP, list_elem_of_here).
  apply IH. intros y Hy. apply HP. by apply list_elem_of_further.
Qed.

Lemma removeEffectsFromSource_spec
    (a : Actor Eff) (p : gmap string (list (Eff * string))) (s : string) :
  effects (removeEffectsFromSource a p s).1
    = filter (λ e, e ∉ default [] (effectsBySource a !! s)) (effects a)
  ∧ effectsBySource (removeEffectsFromSource a p s).1 = delete s (effectsBySource a)
  ∧ baseStats (removeEffectsFromSource a p s).1 = baseStats a
  ∧ actor_id (removeEffectsFromSource a p s).1 = actor_id a
  ∧ name (removeEffectsFromSource a p s).1 = name a
  ∧ takesTourns (removeEffectsFromSource a p s).1 = takesTourns a.
Proof using Type.
  unfold removeEffectsFromSource.
  destruct (remove_loop (default [] (effectsBySource a !! s)) a p) as [Ha _].
  rewrite Ha. simpl. done.
Qed.

(** X2.  After [removeEffectsFromSource(s)] the flat list holds exactly the
    effects that were not in the bucket of [s], in their former order (every
    occurrence of a bucket member is gone); the bucket of [s] is deleted and
    no other bucket is touched; the actor's identifier, name, base stats and
    turn flag are untouched. *)
Theorem removeEffectsFromSource_leaves
    (a : Actor Eff) (p : gmap string (list (Eff * string))) (s : string) :
  let bucket := default [] (effectsBySource a !! s) in
  let r := removeEffectsFromSource a p s in
  effects r.1 = filter (λ e, e ∉ bucket) (effects a)
  ∧ effectsBySource r.1 = delete s (effectsBySource a)
  ∧ baseStats r.1 = baseStats a
  ∧ actor_id r.1 = actor_id a
  ∧ name r.1 = name a
  ∧ takesTourns r.1 = takesTourns a
  ∧ effects r.1 `sublist_of` effects a.
Proof.
  intros bucket r. subst r bucket.
  destruct (removeEffectsFromSource_spec a p s) as (H1 & H2 & H3 & H4 & H5 & H6).
  rewrite H1, H2, H3, H4, H5, H6. repeat split. apply sublist_filter.
Qed.

(** X3.  [removeEffectsFromSource] is idempotent: a second call for the
    same source changes neither the actor nor the listener index. *)
Theorem removeEffectsFromSource_twice
    (a : Actor Eff) (p : gmap string (list (Eff * string))) (s : string) :
  let r := removeEffectsFromSource a p s in
  removeEffectsFromSource r.1 r.2 s = r.
Proof.
  intros r.
  assert (Hgone : effectsBySource r.1 !! s = None).
  { subst r. unfold removeEffectsFromSource. simpl. apply lookup_delete_eq. }
  rewrite (remove_absent_bucket r.1 r.2 s Hgone). symmetry. apply surjective_pairing.
Qed.

(** Registration followed by unregistration, seen through one event type. *)
Lemma register_unregister_lookup (e : Eff) (o : string) (ts : list string)
    (p : gmap string (list (Eff * string))) (t : string) :
  default [] (filter (λ r, r ≠ (e, o)) <$>
                foldl (λ acc t, <[t := default [] (acc !! t) ++ [(e, o)]]> acc) p ts !! t)
  = filter (λ r, r ≠ (e, o)) (default [] (p !! t)).
Proof.
  revert p. induction ts as [| t0 ts IH]; intros p; simpl.
  - by destruct (p !! t).
  - rewrite IH. destruct (decide (t0 = t)) as [-> | Hne].
    + rewrite lookup_insert_eq. simpl. rewrite filter_app.
      rewrite filter_cons_False by (intros Hr; by apply Hr).
      by rewrite filter_nil, app_nil_r.
    + by rewrite lookup_insert_ne.
Qed.

(** X4.  Adding an effect the store does not hold under a source without a
    bucket, then removing that source, gives back the actor exactly, and
    every event type is left with the registrations it had. *)
Theorem addEffect_removeEffectsFromSource
    (a : Actor Eff) (p : gmap string (list (Eff * string))) (e : Eff) (s : string) :
  e ∉ effects a →
  effectsBySource a !! s = None →
  (∀ t regs, p !! t = Some regs → (e, actor_id a) ∉ regs) →
  let added := addEffect eventTypes a p e s in
  let r := removeEffectsFromSource added.1 added.2 s in
  r.1 = a ∧ ∀ t, default [] (r.2 !! t) = default [] (p !! t).
Proof.
  intros Hfresh Hs Hreg added r.
  assert (Hbucket : default [] (effectsBySource added.1 !! s) = [e]).
  { subst added. unfold addEffect. simpl. by rewrite lookup_insert_eq, Hs. }
  subst r. unfold removeEffectsFromSource. rewrite Hbucket.
  destruct (remove_loop [e] added.1 added.2) as [Ha Hp]. rewrite Ha, Hp.
  subst added. unfold addEffect. simpl. split.
  - apply actor_eq; simpl; try done.
    + rewrite filter_app, (filter_cons_False _ e) by (intros Hn; apply Hn, list_elem_of_here).
      rewrite filter_nil, app_nil_r. apply filter_keeps_members. intros x Hx Hin.
      apply list_elem_of_singleton in Hin as ->. done.
    + rewrite delete_insert_eq. by apply delete_id.
  - intros t. unfold unregisterEffect, registerEffect. rewrite lookup_fmap.
    rewrite register_unregister_lookup.
    destruct (p !! t) as [regs |] eqn:Hregs; simpl; [| done].
    apply filter_keeps_members. intros x Hx ->. by eapply Hreg.
Qed.

Lemma register_keeps (e : Eff) (o : string) (ts : list string)
    (p : gmap string (list (Eff * string))) (t : string) :
  ∃ extra,
    default [] (foldl (λ acc t, <[t := default [] (acc !! t) ++ [(e, o)]]> acc) p ts !! t)
    = default [] (p !! t) ++ extra
    ∧ (t ∈ ts → (e, o) ∈ extra)
    ∧ (t ∉ ts →
       foldl (λ acc t, <[t := default [] (acc !! t) ++ [(e, o)]]> acc) p ts !! t = p !! t).
Proof.
  revert p. induction ts as [| t0 ts IH]; intros p; simpl.
  - exists []. rewrite app_nil_r. split; [done |]. split; [| done].
    intros Hin. by apply not_elem_of_nil in Hin.
  - destruct (IH (<[t0 := default [] (p !! t0) ++ [(e, o)]]> p)) as (extra & Heq & Hin & Hout).
    destruct (decide (t0 = t)) as [-> | Hne].
    + exists ((e, o) :: extra). rewrite Heq, lookup_insert_eq. simpl.
      rewrite <- app_assoc. split; [done |]. split.
      * intros _. apply list_elem_of_here.
      * intros Hn. exfalso. apply Hn, list_elem_of_here.
    + exists extra. rewrite Heq, lookup_insert_ne by done. split; [done |]. split.
      * intros Ht. apply Hin. apply elem_of_cons in Ht as [-> | Ht]; [done | exact Ht].
      * intros Ht. rewrite Hout; [by rewrite lookup_insert_ne |].
        intros Hin'. apply Ht. by apply list_elem_of_further.
Qed.

(** X5.  [addEffect(effect, source)] puts the effect last in the flat list
    and last in the bucket of the source (created when absent), touches no
    other bucket, registers the effect under each event type it listens
    for and under no other, and keeps every earlier registration in place. *)
Theorem addEffect_registers
    (a : Actor Eff) (p : gmap string (list (Eff * string))) (e : Eff) (s : string) :
  let r := addEffect eventTypes a p e s in
  effects r.1 = effects a ++ [e]
  ∧ effectsBySource r.1 !! s = Some (default [] (effectsBySource a !! s) ++ [e])
  ∧ (∀ s', s' ≠ s → effectsBySource r.1 !! s' = effectsBySource a !! s')
  ∧ (∀ t, t ∈ eventTypes e → (e, actor_id a) ∈ default [] (r.2 !! t))
  ∧ (∀ t, t ∉ eventTypes e → r.2 !! t = p !! t)
  ∧ (∀ t, default [] (p !! t) `prefix_of` default [] (r.2 !! t)).
Proof.
  intros r. subst r. unfold addEffect. simpl.
  split; [done |]. split; [apply lookup_insert_eq |].
  split; [intros s' Hne; by apply lookup_insert_ne |].
  unfold registerEffect. split; [| split]; intros t.
  - intros Ht. destruct (register_keeps e (actor_id a) (eventTypes e) p t)
      as (extra & Heq & Hin & _).
    rewrite Heq. apply elem_of_app. right. by apply Hin.
  - intros Ht. destruct (register_keeps e (actor_id a) (eventTypes e) p t)
      as (extra & _ & _ & Hout). by apply Hout.
  - destruct (register_keeps e (actor_id a) (eventTypes e) p t) as (extra & Heq & _).
    rewrite Heq. by exists extra.
Qed.

End StoreMore.

(** ** Equipment and stats *)
Section CharMore.
Import Grants Store Char.

Context {Eff : Type} `{EqDecision Eff}.
Variable eventTypes : Eff → list string.
Variable createEffect : EffectDefinition → string → Eff.

Lemma character_eq (c d : Character Eff) :
  actor c = actor d → equipment c = equipment d → class c = class d →
  buffs c = buffs d → c = d.
Proof. destruct c, d; simpl; by intros -> -> -> ->. Qed.

(** The loop of [equipItem] over the effect definitions, summarised; [step]
    is the body of its [forEach]. *)
Lemma equip_loop (item : Item) (i : string)
    (step : Character Eff * gmap string (list (Eff * string)) → EffectDefinition
            → Character Eff * gmap string (list (Eff * string)))
    (defs : list EffectDefinition)
    (c0 : Character Eff) (p0 : gmap string (list (Eff * string))) :
  (∀ st def,
      step st def
      = (set_actor st.1
           (addEffect eventTypes (actor st.1) st.2
                      (createEffect def (actor_id (actor st.1)))
                      ("item:" +:+ item_id item)).1,
         (addEffect eventTypes (actor st.1) st.2
                    (createEffect def (actor_id (actor st.1)))
                    ("item:" +:+ item_id item)).2)) →
  actor_id (actor c0) = i →
  let s := "item:" +:+ item_id item in
  let created := (λ def, createEffect def i) <$> defs in
  let a := actor (foldl step (c0, p0) defs).1 in
  actor_id a = i
  ∧ name a = name (actor c0)
  ∧ baseStats a = baseStats (actor c0)
  ∧ takesTourns a = takesTourns (actor c0)
  ∧ effects a = effects (actor c0) ++ created
  ∧ default [] (effectsBySource a !! s)
    = default [] (effectsBySource (actor c0) !! s) ++ created
  ∧ delete s (effectsBySource a) = delete s (effectsBySource (actor c0)).
Proof.
  intros Hstep Hi s created a. subst a created. revert c0 p0 Hi.
  induction defs as [| def defs IH]; intros c0 p0 Hi.
  - simpl. rewrite !app_nil_r. done.
  - cbn [foldl]. rewrite Hstep.
    match goal with |- context [foldl step (?x, ?y) defs] =>
      destruct (IH x y) as (H1 & H2 & H3 & H4 & H5 & H6 & H7); [exact Hi |]
    end.
    rewrite H1, H2, H3, H4, H5, H6, H7. simpl.
    rewrite lookup_insert_eq, Hi. simpl. rewrite <- !app_assoc. simpl.
    repeat split; try done. fold s. by rewrite delete_insert_eq.
Qed.

(** The character and the index after [equipItem]. *)
Lemma equipItem_spec (c : Character Eff) (p : gmap string (list (Eff * string)))
    (item : Item) :
  let s := "item:" +:+ item_id item in
  let created := (λ def, createEffect def (actor_id (actor c)))
                   <$> default [] (Grants.effects (item_grants item)) in
  let c' := (equipItem eventTypes createEffect c p item).1 in
  equipment c' = equipment c ++ [item]
  ∧ class c' = class c
  ∧ buffs c' = buffs c
  ∧ actor_id (actor c') = actor_id (actor c)
  ∧ name (actor c') = name (actor c)
  ∧ baseStats (actor c') = baseStats (actor c)
  ∧ takesTourns (actor c') = takesTourns (actor c)
  ∧ effects (actor c') = effects (actor c) ++ created
  ∧ default [] (effectsBySource (actor c') !! s)
    = default [] (effectsBySource (actor c) !! s) ++ created
  ∧ delete s (effectsBySource (actor c')) = delete s (effectsBySource (actor c)).
Proof.
  intros s created c'. subst c' created s. unfold equipItem.
  destruct (Grants.effects (item_grants item)) as [defs |].
  - match goal with |- context [foldl ?f (?x, ?y) defs] =>
      destruct (equip_fold_frame eventTypes createEffect item defs (x, y))
        as (He & Hc & Hb);
      destruct (equip_loop item (actor_id (actor c)) f defs x y)
        as (H1 & H2 & H3 & H4 & H5 & H6 & H7); [done | done |]
    end.
    split; [exact He |]. split; [exact Hc |]. split; [exact Hb |].
    split; [exact H1 |]. split; [exact H2 |]. split; [exact H3 |].
    split; [exact H4 |]. split; [exact H5 |]. split; [exact H6 | exact H7].
  - simpl. rewrite !app_nil_r. done.
Qed.

(** X6.  Unequipping an item right after equipping it gives back the
    character exactly (equipment, class, buffs, flat effect list, source
    index), provided no equipped item has its identifier, it has no bucket
    yet, and the effects created from its definitions are new to the store. *)
Theorem unequipItem_equipItem
    (c : Character Eff) (p : gmap string (list (Eff * string))) (item : Item) :
  (∀ i, i ∈ equipment c → item_id i ≠ item_id item) →
  effectsBySource (actor c) !! ("item:" +:+ item_id item) = None →
  (∀ def, def ∈ default [] (Grants.effects (item_grants item)) →
          createEffect def (actor_id (actor c)) ∉ effects (actor c)) →
  let equipped := equipItem eventTypes createEffect c p item in
  (unequipItem equipped.1 equipped.2 item).1 = c.
Proof.
  intros Hids Hbucket Hfresh equipped.
  destruct (equipItem_spec c p item)
    as (He & Hc & Hb & H1 & H2 & H3 & H4 & H5 & H6 & H7).
  fold equipped in He, Hc, Hb, H1, H2, H3, H4, H5, H6, H7.
  rewrite Hbucket in H6. simpl in H6. clearbody equipped.
  destruct (removeEffectsFromSource_spec (actor equipped.1) equipped.2
              ("item:" +:+ item_id item)) as (Hr1 & Hr2 & Hr3 & Hr4 & Hr5 & Hr6).
  unfold unequipItem. cbv zeta.
  cbn [fst snd actor equipment class buffs set_actor set_equipment].
  apply character_eq; cbn [actor equipment class buffs set_actor set_equipment];
    [| | exact Hc | exact Hb].
  - apply actor_eq; rewrite ?Hr1, ?Hr2, ?Hr3, ?Hr4, ?Hr5, ?Hr6; try done.
    + rewrite H6, H5, filter_app.
      rewrite (filter_keeps_members _ (effects (actor c))).
      * rewrite (filter_drops_all _ _); [by rewrite app_nil_r |]. intros x Hx Hn. done.
      * intros x Hx Hin. apply list_elem_of_fmap in Hin as (def & -> & Hdef).
        by eapply Hfresh.
    + rewrite H7. by apply delete_id.
  - rewrite He, filter_app, (filter_cons_False _ item) by (intros Hn; by apply Hn).
    rewrite filter_nil, app_nil_r. apply filter_keeps_members.
    intros i Hi ->. by apply (Hids item Hi).
Qed.


(** [unequipItem] takes off the object it is given and no other: of two
    equipped swords that hold the same [id], unequipping the first leaves
    the second equipped. *)
Example unequipItem_keeps_other_object
    (c : Character Eff) (p : gmap string (list (Eff * string))) :
  equipment c = [Scenario.sword_a; Scenario.sword_b] →
  equipment (unequipItem c p Scenario.sword_a).1 = [Scenario.sword_b].
Proof.
  intros He. unfold unequipItem. cbv zeta.
  cbn [fst snd actor equipment class buffs set_actor set_equipment].
  rewrite He. rewrite filter_cons_False by (intros Hn; by apply Hn).
  rewrite filter_cons_True by discriminate. reflexivity.
Qed.

(** X8.  Stats are collected on access: right after [equipItem] the getter
    counts the item, with no invalidation step.  Where the getter returned
    the flat sum times the multipliers before, it now returns the flat sum
    plus the item's flat grant for the stat (0 when it grants none or
    grants zero), times the same multipliers, each multiplier being taken
    as the getter takes it (1.0 for an absent or zero one); an item that
    grants nothing for the stat (effects only, say) leaves the stat as it
    was. *)
Theorem equipItem_raises_stat
    (c : Character Eff) (p : gmap string (list (Eff * string))) (item : Item)
    (statId : string) (base : Q) :
  baseStats (actor c) !! statId = Some base →
  let flatSum :=
    foldl (λ acc i, acc + Js.or_default (flat_of (item_grants i) statId) 0)
          (base + Js.or_default (flat_of (class_grants (class c)) statId) 0)
          (equipment c) in
  let multipliers :=
    foldl (λ acc buff, acc * Js.or_default (percent_of (buff_grants buff) statId) 1.0)
          1.0 (buffs c) in
  effectiveStat c statId = Some (flatSum * multipliers)
  ∧ effectiveStat (equipItem eventTypes createEffect c p item).1 statId
    = Some ((flatSum + Js.or_default (flat_of (item_grants item) statId) 0) * multipliers)
  ∧ (flat_of (item_grants item) statId = None →
     ∃ v v', effectiveStat c statId = Some v
             ∧ effectiveStat (equipItem eventTypes createEffect c p item).1 statId = Some v'
             ∧ v' == v).
Proof.
  intros Hbase flatSum multipliers.
  destruct (equipItem_spec c p item) as (He & Hc & Hb & _ & _ & Hs & _).
  assert (Hold : effectiveStat c statId = Some (flatSum * multipliers)).
  { unfold effectiveStat. by rewrite Hbase. }
  assert (Hnew : effectiveStat (equipItem eventTypes createEffect c p item).1 statId
                 = Some ((flatSum + Js.or_default (flat_of (item_grants item) statId) 0)
                         * multipliers)).
  { unfold effectiveStat. rewrite Hs, He, Hc, Hb, Hbase, foldl_app. reflexivity. }
  split; [exact Hold |]. split; [exact Hnew |].
  intros Hnone. eexists _, _. split; [exact Hold |]. split; [exact Hnew |].
  rewrite Hnone. simpl. ring.
Qed.

Lemma apply_op_baseStats (st : Actor Eff * gmap string (list (Eff * string)))
    (op : StoreOp Eff) :
  baseStats (apply_op eventTypes st op).1 = baseStats st.1.
Proof.
  destruct op as [e s | e | s]; [done | done |].
  by destruct (removeEffectsFromSource_spec st.1 st.2 s) as (_ & _ & Hb & _).
Qed.

(** X9.  No sequence of [addEffect], [removeEffect] and
    [removeEffectsFromSource] on a character's store changes any effective
    stat: the getter reads base stats, class, equipment and buffs only. *)
Theorem store_ops_keep_stats
    (c : Character Eff) (p : gmap string (list (Eff * string)))
    (ops : list (StoreOp Eff)) (statId : string) :
  effectiveStat (set_actor c (run_ops eventTypes (actor c, p) ops).1) statId
  = effectiveStat c statId.
Proof.
  assert (Hbase : ∀ st, baseStats (run_ops eventTypes st ops).1 = baseStats st.1).
  { induction ops as [| op ops IH]; intros st; [done |].
    change (run_ops eventTypes st (op :: ops))
      with (run_ops eventTypes (apply_op eventTypes st op) ops).
    rewrite IH. apply apply_op_baseStats. }
  unfold effectiveStat. simpl. by rewrite Hbase.
Qed.

End CharMore.

(** ** The pipeline: parent chains and termination *)
Section PipelineMore.
Import Pipeline Registry Debug.

Lemma chain_length : ∀ e : Event, chain_ok e → length (traceEventChain e) = S (depth e).
Proof.
  fix IH 1. intros e. destruct e as [t s tg b c n f d parent co ca]. simpl.
  destruct parent as [p |].
  - intros [Hd Hp]. by rewrite (IH p Hp), Hd.
  - by intros ->.
Qed.

Lemma variant_chain (e e' : Event) : variant e e' → chain_ok e → chain_ok e'.
Proof. intros (v & n & b & -> & _). by destruct e. Qed.

Lemma spawn_chain (e : Event) (rq : EventRequest) : chain_ok e → chain_ok (spawn e rq).
Proof. intros He. unfold spawn, newEvent. simpl. done. Qed.

(** The events one turn of the loop adds to the queue. *)
Lemma step_children (p p' : Pipeline) :
  step p = Some p' →
  ∃ e rest children,
    queue p = e :: rest
    ∧ queue p' = rest ++ children
    ∧ maxDepth p' = maxDepth p
    ∧ Forall (λ c, ∃ e2 rq, variant e e2 ∧ c = spawn e2 rq) children
    ∧ ((maxDepth p < depth e)%nat → children = []).
Proof.
  unfold step. destruct (queue p) as [| e rest] eqn:Hq; [done |].
  destruct (decide (maxDepth p < depth e)%nat) as [Hdeep | Hok].
  - intros [= <-]. exists e, rest, []. simpl. rewrite app_nil_r. by repeat split.
  - set (meta := run_meta _ e (world p)).
    set (modif := run_modification meta.1 _ e (world p)).
    destruct (run_modification_variant meta.1 (world p)
                (effects_for PhModification (listeners p) e) e e (variant_refl e))
      as [He2 _]. fold modif in He2.
    set (valid := run_validation _ modif.1 (world p)).
    assert (He3 : variant e valid.1) by (by apply run_validation_variant).
    destruct (cancelled valid.1).
    + intros [= <-]. exists e, rest, []. simpl. rewrite app_nil_r. by repeat split.
    + set (react := run_reaction _ valid.1 _).
      intros [= <-]. exists e, rest, (spawn valid.1 <$> react.1). simpl.
      do 3 (split; [done |]). split; [| done].
      apply Forall_fmap, Forall_forall. intros rq _. simpl. by exists valid.1, rq.
Qed.

Lemma step_is_Some (p : Pipeline) : queue p ≠ [] → is_Some (step p).
Proof.
  unfold step. destruct (queue p) as [| e rest]; [done |]. intros _.
  destruct (decide _); [by eexists |].
  destruct (cancelled _); by eexists.
Qed.

Lemma step_None (p : Pipeline) : queue p = [] → step p = None.
Proof. unfold step. by intros ->. Qed.

Lemma drain_plus (a b : nat) (p : Pipeline) : drain (a + b) p = drain b (drain a p).
Proof.
  revert p. induction a as [| a IH]; intros p; simpl; [done |].
  destruct (step p) as [p' |] eqn:Hstep; [apply IH |].
  destruct b; simpl; [done | by rewrite Hstep].
Qed.

(** How far an event is from the guard. *)
Lemma drain_prefix (n : nat) (pre : list Event) :
  ∀ (post : list Event) (p : Pipeline),
    queue p = pre ++ post →
    Forall (λ e, S (maxDepth p) - depth e ≤ S n)%nat pre →
    Forall (λ e, S (maxDepth p) - depth e ≤ n)%nat post →
    Forall (λ e, S (maxDepth p) - depth e ≤ n)%nat (queue (drain (length pre) p))
    ∧ maxDepth (drain (length pre) p) = maxDepth p.
Proof.
  induction pre as [| e pre IH]; intros post p Hq Hpre Hpost.
  - simpl in *. by rewrite Hq.
  - apply Forall_cons in Hpre as [He Hpre]. simpl.
    destruct (step_is_Some p) as [p' Hstep]; [by rewrite Hq |]. rewrite Hstep.
    destruct (step_children p p' Hstep)
      as (e0 & rest & children & Hq0 & Hq' & Hmax & Hch & _).
    rewrite Hq in Hq0. simpl in Hq0. injection Hq0 as <- <-.
    destruct (IH (post ++ children) p') as [H1 H2].
    + by rewrite Hq', app_assoc.
    + by rewrite Hmax.
    + rewrite Hmax. apply Forall_app. split; [done |].
      eapply Forall_impl; [exact Hch |]. simpl.
      intros c (e2 & rq & Hvar & ->). simpl. rewrite (variant_depth _ _ Hvar). lia.
    + rewrite Hmax in H1, H2. done.
Qed.

Lemma drain_bounded (n : nat) :
  ∀ p : Pipeline,
    Forall (λ e, S (maxDepth p) - depth e ≤ n)%nat (queue p) →
    ∃ fuel, queue (drain fuel p) = [].
Proof.
  induction n as [| n IH]; intros p Hq.
  - exists (length (queue p)).
    remember (queue p) as q eqn:Heq. revert p Heq Hq.
    induction q as [| e q IHq]; intros p Heq Hq; simpl; [done |].
    apply Forall_cons in Hq as [He Hq].
    destruct (step_is_Some p) as [p' Hstep]; [by rewrite <- Heq |]. rewrite Hstep.
    destruct (step_children p p' Hstep)
      as (e0 & rest & children & Hq0 & Hq' & Hmax & _ & Hdrop).
    rewrite <- Heq in Hq0. injection Hq0 as <- <-.
    rewrite Hdrop in Hq' by lia. rewrite app_nil_r in Hq'.
    apply IHq; [done | by rewrite Hmax].
  - destruct (drain_prefix n (queue p) [] p) as [H1 H2].
    + by rewrite app_nil_r.
    + done.
    + constructor.
    + destruct (IH (drain (length (queue p)) p)) as [fuel Hfuel].
      * by rewrite H2.
      * exists (length (queue p) + fuel)%nat. by rewrite drain_plus.
Qed.

(** X14.  [drain()] always ends: for every pipeline state, whatever the
    registered effects spawn, some amount of fuel empties the queue, and
    more fuel changes nothing.  The depth check is what bounds the chains. *)
Theorem drain_terminates (p : Pipeline) :
  ∃ fuel, queue (drain fuel p) = []
          ∧ step (drain fuel p) = None
          ∧ ∀ more, drain (fuel + more) p = drain fuel p.
Proof.
  destruct (drain_bounded (S (maxDepth p)) p) as [fuel Hfuel].
  - apply Forall_forall. intros e _. lia.
  - exists fuel. split; [done |]. split; [by apply step_None |].
    intros more. rewrite drain_plus. destruct more; simpl; [done |].
    by rewrite (step_None _ Hfuel).
Qed.

Lemma step_chain (p p' : Pipeline) :
  step p = Some p' →
  Forall chain_ok (queue p) ∧ Forall chain_ok (entry_event <$> trace p) →
  Forall chain_ok (queue p') ∧ Forall chain_ok (entry_event <$> trace p').
Proof.
  intros Hstep [Hq Htr].
  destruct (step_children p p' Hstep)
    as (e & rest & children & Hqueue & Hqueue' & _ & Hch & _).
  destruct (step_cases p p' Hstep)
    as (e0 & rest0 & seg & _ & Hqueue0 & Htrace & _ & _ & _ & Hseg & _).
  rewrite Hqueue in Hqueue0. injection Hqueue0 as <- <-.
  rewrite Hqueue in Hq. apply Forall_cons in Hq as [He Hrest]. split.
  - rewrite Hqueue'. apply Forall_app. split; [done |].
    eapply Forall_impl; [exact Hch |]. simpl.
    intros c (e2 & rq & Hvar & ->). apply spawn_chain. by eapply variant_chain.
  - rewrite Htrace, fmap_app. apply Forall_app. split; [done |].
    apply Forall_fmap. eapply Forall_impl; [exact Hseg |].
    intros x Hx. exact (variant_chain e _ Hx He).
Qed.

(** X13.  In any pipeline fed with root events, at any point of a drain,
    every event in the queue and every event the record shows has a parent
    chain that matches its depth: [traceEventChain] logs exactly
    [depth + 1] types, the event's own first and the root's last. *)
Theorem depth_counts_parents
    (n : nat) (l : gmap string (list Effect)) (w : World) (rqs : list EventRequest) :
  let p := drain n (foldl submit (new_Pipeline l w) (rootEvent <$> rqs)) in
  Forall (λ e, chain_ok e ∧ length (traceEventChain e) = S (depth e))
         (queue p ++ (entry_event <$> trace p)).
Proof.
  intros p.
  assert (Hinv : Forall chain_ok (queue p) ∧ Forall chain_ok (entry_event <$> trace p)).
  { subst p.
    assert (Hsub : ∀ q, Forall chain_ok (queue q) ∧ Forall chain_ok (entry_event <$> trace q) →
              Forall chain_ok (queue (foldl submit q (rootEvent <$> rqs)))
              ∧ Forall chain_ok (entry_event <$> trace (foldl submit q (rootEvent <$> rqs)))).
    { induction rqs as [| rq rqs IH]; intros q Hq; simpl; [done |].
      apply IH. destruct Hq as [Hq Htr]. split; [| done]. simpl.
      apply Forall_app. split; [done |]. by repeat constructor. }
    assert (Hdrain : ∀ q, Forall chain_ok (queue q) ∧ Forall chain_ok (entry_event <$> trace q) →
              Forall chain_ok (queue (drain n q))
              ∧ Forall chain_ok (entry_event <$> trace (drain n q))).
    { induction n as [| n IH]; intros q Hq; simpl; [done |].
      destruct (step q) as [q' |] eqn:Hstep; [| done].
      apply IH. by eapply step_chain. }
    apply Hdrain, Hsub. split; constructor. }
  destruct Hinv as [Hq Htr]. apply Forall_app. split.
  - eapply Forall_impl; [exact Hq |]. intros e He. split; [done | by apply chain_length].
  - eapply Forall_impl; [exact Htr |]. intros e He. split; [done | by apply chain_length].
Qed.

Lemma insert_by_priority_filter (k : Z) (f : Effect) (l : list Effect) :
  filter (λ g, priority g = k) (insert_by_priority f l)
  = filter (λ g, priority g = k) (f :: l).
Proof.
  induction l as [| g l IH]; simpl; [done |].
  destruct (priority g <=? priority f)%Z eqn:Hle; [done |].
  apply Z.leb_gt in Hle.
  rewrite (filter_cons _ g), IH, !(filter_cons _ f), (filter_cons _ g).
  destruct (decide (priority g = k)), (decide (priority f = k)); try done. lia.
Qed.

(** X15.  The execution order of a phase is a stable sort of the registered
    effects by descending priority: the same effects, no effect before one
    of strictly higher priority, and effects of equal priority in their
    registration order. *)
Theorem by_priority_stable (l : list Effect) :
  by_priority l ≡ₚ l
  ∧ descending (by_priority l)
  ∧ ∀ k : Z, filter (λ f, priority f = k) (by_priority l)
             = filter (λ f, priority f = k) l.
Proof.
  split; [apply by_priority_perm |]. split; [apply by_priority_descending |].
  intros k. induction l as [| f l IH]; simpl; [done |].
  rewrite insert_by_priority_filter, !(filter_cons _ f), IH. done.
Qed.

End PipelineMore.

(** ** The counter component *)
Section InkFacts.
Import Ink.

Lemma cleared_interval_is_silent (hs : list Happening) (c : Counter) :
  timer c = false → foldl happen c hs = c.
Proof.
  intros Hc. induction hs as [| h hs IH]; simpl; [done |].
  destruct h; simpl.
  - unfold intervalElapsed. by rewrite Hc.
  - exact IH.
  - destruct c as [n t]. simpl in *. by subst.
Qed.

Lemma live_interval_counts (hs : list Happening) (c : Counter) :
  timer c = true →
  counter (foldl happen c hs) = (counter c + elapsed_while_mounted hs)%nat
  ∧ (Unmount ∈ hs → timer (foldl happen c hs) = false)
  ∧ (Unmount ∉ hs → timer (foldl happen c hs) = true).
Proof.
  revert c. induction hs as [| h hs IH]; intros c Hc; simpl.
  - split; [lia |]. split; [| done]. intros Hin. by apply not_elem_of_nil in Hin.
  - destruct h; simpl.
    + unfold intervalElapsed. rewrite Hc.
      destruct (IH {| counter := S (counter c); timer := true |} eq_refl) as (H1 & H2 & H3).
      rewrite H1. simpl. split; [lia |]. split.
      * intros Hin. apply H2. apply elem_of_cons in Hin as [Heq | Hin]; [done | exact Hin].
      * intros Hout. apply H3. intros Hin. apply Hout. by apply list_elem_of_further.
    + destruct (IH c Hc) as (H1 & H2 & H3). split; [exact H1 |]. split.
      * intros Hin. apply H2. apply elem_of_cons in Hin as [Heq | Hin]; [done | exact Hin].
      * intros Hout. apply H3. intros Hin. apply Hout. by apply list_elem_of_further.
    + rewrite cleared_interval_is_silent by done. simpl. split; [lia |]. split; [done |].
      intros Hout. exfalso. apply Hout, list_elem_of_here.
Qed.

(** X16.  The counter component shows the number of times the interval
    elapsed while it was mounted: re-renders do not count, the text is that
    number followed by " tests passed", and once unmounted (the interval
    cleared) nothing that happens changes the counter any more. *)
Theorem counter_counts_intervals (hs : list Happening) :
  counter (run hs) = elapsed_while_mounted hs
  ∧ text (render (run hs)) = pretty (elapsed_while_mounted hs) +:+ " tests passed"
  ∧ (∀ more, Unmount ∈ hs → run (hs ++ more) = run hs).
Proof.
  destruct (live_interval_counts hs mount eq_refl) as (H1 & H2 & _).
  simpl in H1. unfold run. split; [exact H1 |]. split.
  - unfold render. cbn [text]. by rewrite H1.
  - intros more Hin. rewrite foldl_app.
    apply cleared_interval_is_silent. by apply H2.
Qed.

End InkFacts.

(** ** The properties above at concrete inputs *)
Section MoreWitnesses.
Import Grants Store Char Scenario Cases.

Lemma remove_ghost_source :
  removeEffectsFromSource bare_actor (∅ : gmap string (list (string * string))) "item:ghost"
  = (bare_actor, ∅).
Proof.
  apply (removeEffectsFromSource_unknown_source bare_actor ∅ "item:ghost");
    reflexivity.
Defined.

Lemma add_burn_remove_sword :
  (removeEffectsFromSource
     (addEffect damage_only bare_actor ∅ "burn" "item:sword1").1
     (addEffect damage_only bare_actor ∅ "burn" "item:sword1").2
     "item:sword1").1 = bare_actor.
Proof.
  apply (addEffect_removeEffectsFromSource damage_only bare_actor ∅ "burn" "item:sword1").
  - apply not_elem_of_nil.
  - reflexivity.
  - intros t regs Hregs. by rewrite lookup_empty in Hregs.
Defined.

Lemma fighter_swaps_flame_sword :
  (unequipItem
     (equipItem damage_only name_effect (fighter 1) ∅ flame_sword).1
     (equipItem damage_only name_effect (fighter 1) ∅ flame_sword).2
     flame_sword).1 = fighter 1.
Proof.
  apply (unequipItem_equipItem damage_only name_effect (fighter 1) ∅ flame_sword).
  - intros i Hi. apply list_elem_of_singleton in Hi as ->. discriminate.
  - reflexivity.
  - intros def _. apply not_elem_of_nil.
Defined.


Lemma flame_sword_raises_attack :
  ∃ v v',
    effectiveStat (fighter 1.5) "attack" = Some v
    ∧ effectiveStat (equipItem damage_only name_effect (fighter 1.5) ∅ flame_sword).1
                    "attack" = Some v'
    ∧ v == 45 ∧ v' == 60.
Proof.
  pose proof (equipItem_raises_stat damage_only name_effect (fighter 1.5) ∅ flame_sword
                "attack" 20 eq_refl) as Hraise.
  cbv zeta in Hraise. destruct Hraise as (Hv & Hv' & _).
  eexists _, _. split; [exact Hv |]. split; [exact Hv' |].
  split; vm_compute; reflexivity.
Defined.

End MoreWitnesses.
